(** * fastify-project: the balance ledger and the catalog cache pipeline

    A shallow embedding of
      - [UserService.deductBalance]      (src/service/user.service.ts),
      - the [UsersRepository] methods it calls
                                         (src/repository/users.repository.ts),
      - [UserController.simpleBuyItem]   (src/controller/skin.controller.ts),
      - [fetchItems]                     (src/workers/skin.worker.js),
      - [SkinService.getSkinsByWorker]   (src/service/skin.service.ts),
    followed by the properties of the specification that concern them. *)

From Stdlib Require Import ZArith QArith Bool Lia.
From Stdlib Require Import Ascii.
From stdpp Require Import gmap strings list fin_maps pretty.

Local Open Scope string_scope.
Local Open Scope Z_scope.

(** ** Numbers

    The numbers that reach the ledger are the [balance INT] column of the
    [users] table and the [userId] and [amount] fields of a request body.
    Finite numbers are integers here; the three values of a JS number that
    are not finite are kept, because [!x], [isNaN], [<], [<=] and [-] treat
    them apart. *)
Module Num.

Inductive jsnum : Type :=
| Fin (z : Z)
| PInf
| NInf
| NaN.

#[global] Instance jsnum_eq_dec : EqDecision jsnum.
Proof. solve_decision. Defined.

(** [isNaN(x)] *)
Definition isNaN (x : jsnum) : bool :=
  match x with NaN => true | _ => false end.

(** [Boolean(x)]: [0] and [NaN] are the falsy numbers. *)
Definition truthy (x : jsnum) : bool :=
  match x with
  | Fin z => negb (z =? 0)
  | NaN => false
  | PInf | NInf => true
  end.

(** [x < y]; any comparison with [NaN] is [false]. *)
Definition lt (x y : jsnum) : bool :=
  match x, y with
  | NaN, _ | _, NaN => false
  | Fin a, Fin b => a <? b
  | NInf, NInf => false
  | NInf, _ => true
  | _, NInf => false
  | PInf, _ => false
  | Fin _, PInf => true
  end.

(** [x <= y] *)
Definition le (x y : jsnum) : bool :=
  match x, y with
  | NaN, _ | _, NaN => false
  | Fin a, Fin b => a <=? b
  | NInf, _ => true
  | _, PInf => true
  | PInf, _ => false
  | Fin _, NInf => false
  end.

(** [x - y] *)
Definition sub (x y : jsnum) : jsnum :=
  match x, y with
  | NaN, _ | _, NaN => NaN
  | Fin a, Fin b => Fin (a - b)
  | PInf, PInf | NInf, NInf => NaN
  | PInf, _ => PInf
  | NInf, _ => NInf
  | Fin _, PInf => NInf
  | Fin _, NInf => PInf
  end.


End Num.
Export Num.

(** ** The relational store *)
Module Store.

(** A row of [users] without its key: [id SERIAL PRIMARY KEY] is the key of
    the table, so the table is a finite map from [id]. *)
Record account : Type := Account {
  balance : Z;
  email : string;
  password : string
}.

(** A row as a query returns it. *)
Record row : Type := Row {
  row_id : Z;
  row_account : account
}.

Definition error : Type := string.

(** The statements [UsersRepository] sends for a debit, with their
    parameters [$1], [$2]. *)
Inductive sql : Type :=
| BEGIN
| ROLLBACK
| COMMIT
| SELECT_FOR_UPDATE (id : jsnum)
    (* SELECT * FROM users WHERE id = $1 FOR UPDATE *)
| UPDATE_BALANCE (newBalance : jsnum) (id : jsnum).
    (* UPDATE users SET balance = $1 WHERE id = $2 RETURNING id, balance, email *)

(** Modelled from the spec: [config/db.config], which builds [client], is
    not among the sources. The specification (5, 9) has the store
    connection as one process-wide shared handle, and both repositories are
    singletons over the imported [client]; so every statement of every
    request runs in one session. [table] is the committed state, [tx] the
    working copy of the session's open transaction, [log] the statements
    received so far (latest first), and [faults] says, statement by
    statement, whether the session fails it. *)
Record store : Type := Store {
  table : gmap Z account;
  tx : option (gmap Z account);
  log : list sql;
  faults : list (option error)
}.

(** What the session currently sees. *)
Definition view (s : store) : gmap Z account :=
  default (table s) (tx s).

Definition select_rows (m : gmap Z account) (id : Z) : list row :=
  match m !! id with
  | Some a => [Row id a]
  | None => []
  end.

Definition set_balance (b : Z) (a : account) : account :=
  Account b (email a) (password a).

(** The effect of a statement the session accepts: the rows it returns and
    the new committed state and working copy. [None] is a statement the
    server refuses: an [INT] column takes no [NaN] or infinity. A second
    [BEGIN] and a [COMMIT] or [ROLLBACK] outside a transaction succeed
    and change nothing. *)
Definition effect (q : sql) (s : store)
  : option (list row * gmap Z account * option (gmap Z account)) :=
  match q with
  | BEGIN => Some ([], table s, Some (view s))
  | ROLLBACK => Some ([], table s, None)
  | COMMIT => Some ([], view s, None)
  | SELECT_FOR_UPDATE (Fin id) => Some (select_rows (view s) id, table s, tx s)
  | UPDATE_BALANCE (Fin b) (Fin id) =>
      let m := alter (set_balance b) id (view s) in
      match tx s with
      | Some _ => Some (select_rows m id, table s, Some m)
      | None => Some (select_rows m id, m, None)
      end
  | SELECT_FOR_UPDATE _ | UPDATE_BALANCE _ _ => None
  end.

Definition invalid_input : error := "invalid input syntax for type integer".

(** How the promise of a statement settles: rejected or resolved. *)
Definition completion : Type := error + list row.

(** [this.repository.query(q)]: the promise is rejected or resolved. *)
Definition exec (q : sql) (s : store) : completion * store :=
  match faults s with
  | Some e :: fs => (inl e, Store (table s) (tx s) (q :: log s) fs)
  | fs =>
      match effect q s with
      | Some (rows, t, w) => (inr rows, Store t w (q :: log s) (tail fs))
      | None => (inl invalid_input, Store (table s) (tx s) (q :: log s) (tail fs))
      end
  end.

(** No statement is failed by the session. *)
Definition healthy (s : store) : Prop :=
  Forall (λ f, f = None) (faults s).

End Store.
Export Store.

(** ** Asynchronous code over the store

    An [async] function is the tree of the statements it awaits: at
    [Await q k] the function is suspended on [query q] and continues with
    [k] on the outcome. [Throw] is an exception in flight. *)
Module Async.

Inductive prog (A : Type) : Type :=
| Ret (a : A)
| Throw (e : error)
| Await (q : sql) (k : completion → prog A).
Arguments Ret {A} a.
Arguments Throw {A} e.
Arguments Await {A} q k.

Fixpoint bind {A B} (p : prog A) (f : A → prog B) : prog B :=
  match p with
  | Ret a => f a
  | Throw e => Throw e
  | Await q k => Await q (λ r, bind (k r) f)
  end.

#[global] Instance prog_ret : MRet prog := @Ret.
#[global] Instance prog_bind : MBind prog := λ A B f p, bind p f.

(** [try { p } catch (error) { h error }] *)
Fixpoint try_catch {A} (p : prog A) (h : error → prog A) : prog A :=
  match p with
  | Ret a => Ret a
  | Throw e => h e
  | Await q k => Await q (λ r, try_catch (k r) h)
  end.

(** [await this.repository.query(q)] *)
Definition query (q : sql) : prog (list row) :=
  Await q (λ r, match r with inl e => Throw e | inr rows => Ret rows end).

(** How a call ends. *)
Inductive outcome (A : Type) : Type :=
| Returned (a : A)
| Raised (e : error).
Arguments Returned {A} a.
Arguments Raised {A} e.

(** A call that runs alone on the session, to its end. *)
Fixpoint run {A} (p : prog A) (s : store) : outcome A * store :=
  match p with
  | Ret a => (Returned a, s)
  | Throw e => (Raised e, s)
  | Await q k => let '(r, s') := exec q s in run (k r) s'
  end.

(** One turn of a suspended call: its awaited statement is executed and the
    call advances to its next suspension. *)
Definition resume {A} (p : prog A) (s : store) : prog A * store :=
  match p with
  | Await q k => let '(r, s') := exec q s in (k r, s')
  | _ => (p, s)
  end.

(** Two calls in flight on the one session. The schedule says whose
    statement the session executes next ([true]: the first call's). *)
Fixpoint interleave {A B} (sched : list bool) (p1 : prog A) (p2 : prog B)
    (s : store) : prog A * prog B * store :=
  match sched with
  | [] => (p1, p2, s)
  | true :: sched' =>
      let '(p1', s') := resume p1 s in interleave sched' p1' p2 s'
  | false :: sched' =>
      let '(p2', s') := resume p2 s in interleave sched' p1 p2' s'
  end.

(** The two calls one after the other, the first to its end before the
    second starts: what each returns and the table committed at the end. *)
Definition in_turn {A B} (p1 : prog A) (p2 : prog B) (s : store)
  : outcome A * outcome B * gmap Z account :=
  let '(o1, s1) := run p1 s in
  let '(o2, s2) := run p2 s1 in
  (o1, o2, table s2).

(** Every interleaving that lets both calls return leaves what one of the
    two orders of running them in turn leaves. *)
Definition serializable {A B} (p1 : prog A) (p2 : prog B) (s : store) : Prop :=
  ∀ sched r1 r2 s',
    interleave sched p1 p2 s = (Ret r1, Ret r2, s') →
    in_turn p1 p2 s = (Returned r1, Returned r2, table s')
    ∨ in_turn p2 p1 s = (Returned r2, Returned r1, table s').

End Async.
Export Async.

(** ** [UsersRepository] (src/repository/users.repository.ts) *)
Module UsersRepository.

Definition begin : prog (list row) := query BEGIN.
Definition rollBack : prog (list row) := query ROLLBACK.
Definition commit : prog (list row) := query COMMIT.

(** What [getUserForUpdate] hands back: [response.rows] itself when it has
    more than one row, else [response.rows[0]], which is [undefined] on an
    empty answer. *)
Inductive found : Type :=
| One (r : row)
| Many (rs : list row)
| Undefined.

Definition getUserForUpdate (id : jsnum) : prog found :=
  rows ← query (SELECT_FOR_UPDATE id);
  if bool_decide (1 < length rows)%nat then mret (Many rows)
  else mret (from_option One Undefined (head rows)).

Definition updateUserBalance (userId newBalance : jsnum) : prog (list row) :=
  query (UPDATE_BALANCE newBalance userId).

End UsersRepository.

(** ** [UserService] (src/service/user.service.ts) *)
Module UserService.
Import UsersRepository.

(** [msg] of a refusal: one of the two texts, or the caught [error]. *)
Inductive message : Type :=
| Text (s : string)
| Caught (e : error).

(** [{success: true, user: {id, balance}}] or [{success: false, msg}]. *)
Inductive debit_result : Type :=
| Debited (id : jsnum) (balance : jsnum)
| Refused (msg : message).

Definition success (r : debit_result) : bool :=
  match r with Debited _ _ => true | Refused _ => false end.

Definition UserNotFound : debit_result := Refused (Text "User not found").
Definition InsufficientBalance : debit_result :=
  Refused (Text "Insufficient balance").

(** [!res] *)
Definition absent (res : found) : bool :=
  match res with Undefined => true | _ => false end.

(** [res.balance]; an array has no such property, and [undefined] counts
    as [NaN] in [<] and [-]. *)
Definition balance_of (res : found) : jsnum :=
  match res with
  | One r => Fin (balance (row_account r))
  | _ => NaN
  end.

Definition deductBalance (userId amount : jsnum) : prog debit_result :=
  try_catch
    (_ ← begin;
     res ← getUserForUpdate userId;
     if absent res then
       _ ← rollBack;
       mret UserNotFound
     else
       let balance := balance_of res in
       if Num.lt balance amount then
         _ ← rollBack;
         mret InsufficientBalance
       else
         let newBalance := Num.sub balance amount in
         _ ← updateUserBalance userId newBalance;
         _ ← commit;
         mret (Debited userId newBalance))
    (λ error,
       _ ← rollBack;
       mret (Refused (Caught error))).

End UserService.
Export UserService.

(** ** [UserController.simpleBuyItem] (src/controller/skin.controller.ts) *)
Module UserController.

(** [req.body as { userId: number; amount: number }]; a field that the
    body lacks is [undefined], here [None]. *)
Record body : Type := Body {
  userId : option jsnum;
  amount : option jsnum
}.

(** [res.status(statusCode).send({statusCode, msg, ...})] *)
Inductive response : Type :=
| BadRequest (msg : message)                 (* 400 *)
| Deducted (id : jsnum) (balance : jsnum)    (* 200 *)
| InternalServerError (e : error).           (* 500 *)



(** [!x] on a field *)
Definition falsy (x : option jsnum) : bool :=
  match x with Some n => negb (truthy n) | None => true end.

(** [isNaN(x)] on a field: [undefined] converts to [NaN]. *)
Definition isNaN (x : option jsnum) : bool :=
  match x with Some n => Num.isNaN n | None => true end.

(** [x <= 0] on a field *)
Definition le0 (x : option jsnum) : bool :=
  match x with Some n => Num.le n (Fin 0) | None => false end.

Definition invalid : response := BadRequest (Text "Invalid userId or amount").

(** Past the test both fields are numbers, which [deductBalance] is
    handed as they are. *)
Definition simpleBuyItem (b : body) : prog response :=
  try_catch
    (if falsy (userId b) || falsy (amount b) || isNaN (userId b)
        || isNaN (amount b) || le0 (amount b)
     then mret invalid
     else
       result ← deductBalance (default NaN (userId b)) (default NaN (amount b));
       match result with
       | Debited id balance => mret (Deducted id balance)
       | Refused msg => mret (BadRequest msg)
       end)
    (λ error, mret (InternalServerError error)).

End UserController.

(** ** JSON values and the platform's [JSON] object *)
Module Json.

#[warnings="-register-all"]
Inductive json : Type :=
| JNull
| JNum (q : Q)
| JStr (s : string)
| JArr (l : list json)
| JObj (fields : list (string * json)).

(** [JSON.stringify] and [JSON.parse] are the platform's; the development
    is parametric in them. [parse] is [None] where [JSON.parse] throws. *)
Class JSON : Type := {
  stringify : json → string;
  parse : string → option json
}.

End Json.
Export Json.

(** ** The fetch task (src/workers/skin.worker.js) *)
Module SkinWorker.

(** An element of [response.data]: the two properties the task reads.
    [min_price] is a number or [null]. *)
Record item : Type := Item {
  market_hash_name : string;
  min_price : option Q
}.

(** An element of [items]. *)
Record skin : Type := Skin {
  name : string;
  min_price_non_tradable : option Q;
  min_price_tradable : option Q
}.

(** [x || null]: [undefined], [null] and [0] all give [null]. *)
Definition or_null (x : option Q) : option Q :=
  match x with
  | Some p => if Qeq_bool p 0 then None else Some p
  | None => None
  end.

(** [nonTradableItems.map((item, index) => ({...}))] *)
Definition merge (nonTradableItems tradableItems : list item) : list skin :=
  imap (λ index item,
          Skin (market_hash_name item)
               (min_price item)
               (or_null (tradableItems !! index ≫= min_price)))
       nonTradableItems.

(** How [Promise.all] over the two [axios.get] calls settles. *)
Inductive fetched : Type :=
| Responses (nonTradableItems tradableItems : list item)
| Rejected (message : string).

(** The two requests of a run: [params.tradable] is [0], then [1]. *)
Inductive request : Type :=
| Get (tradable : Z).

Definition requests : list request := [Get 0; Get 1].

Definition price_json (p : option Q) : json :=
  from_option JNum JNull p.

Definition skin_json (s : skin) : json :=
  JObj [("name", JStr (name s));
        ("min_price_non_tradable", price_json (min_price_non_tradable s));
        ("min_price_tradable", price_json (min_price_tradable s))].

Definition error_json (message : string) : json :=
  JObj [("error", JStr "Failed to fetch items"); ("details", JStr message)].

(** [fetchItems]: the messages posted to [parentPort], in order; [None] is
    the [null] that announces the end. *)
Definition fetchItems `{JSON} (settled : fetched) : list (option string) :=
  match settled with
  | Responses nonTradableItems tradableItems =>
      let items := merge nonTradableItems tradableItems in
      [Some (stringify (JArr (skin_json <$> items))); None]
  | Rejected message =>
      [Some (stringify (error_json message))]
  end.

(** What the parent observes of the thread. *)
Inductive event : Type :=
| Message (message : option string)
| Error (e : error)
| Exit (code : Z).

(** A run of the script: [fetchItems] handles the rejection itself, no
    exception leaves it, and the thread ends with exit code [0] on either
    path, after its messages. *)
Definition thread `{JSON} (settled : fetched) : list event :=
  (Message <$> fetchItems settled) ++ [Exit 0].

End SkinWorker.
Export SkinWorker.

(** ** [SkinService.getSkinsByWorker] (src/service/skin.service.ts) *)
Module SkinService.

Definition cacheKey : string := "skins_data".

(** The key-value cache: each entry with the instant (in seconds) at which
    it expires; [reachable] is whether commands get through. *)
Record redis : Type := Redis {
  entries : gmap string (string * Z);
  reachable : bool
}.

Definition unreachable : error := "Connection is closed.".

(** [redis.get(key)] at instant [now]: rejected, [null] or the value. *)
Definition get (now : Z) (key : string) (r : redis) : error + option string :=
  if reachable r then
    inr (match entries r !! key with
         | Some (value, expiry) =>
             if bool_decide (now < expiry) then Some value else None
         | None => None
         end)
  else inl unreachable.

(** [redis.set(key, value, 'EX', seconds)] at instant [now]. *)
Definition set_ex (now : Z) (key value : string) (seconds : Z) (r : redis)
  : error + redis :=
  if reachable r then
    inr (Redis (<[key := (value, now + seconds)]> (entries r)) true)
  else inl unreachable.

(** The bodies [res.send] is given. *)
Inductive payload : Type :=
| FromCache (data : json)
    (* {statusCode: 200, msg: 'Skins retrieved successfully (from cache)', data} *)
| CacheFailure     (* {error: 'Internal server error (cache)'} *)
| ParsingFailure   (* {error: 'Internal server error while parsing JSON'} *)
| WorkerFailure.   (* {error: 'Internal server error'} *)

(** What is done to [res], in order. *)
Inductive action : Type :=
| Send (status : Z) (body : payload)
| SetHeader (header value : string)
| Write (chunk : string)
| End.

(** [if (cachedData)] *)
Definition nonempty (s : string) : bool :=
  match s with EmptyString => false | String _ _ => true end.

(** The first [try] block: the reply when the request is answered there,
    [None] when control leaves the block for the worker. *)
Definition probe `{JSON} (now : Z) (r : redis) : option (list action) :=
  match get now cacheKey r with
  | inr (Some cachedData) =>
      if nonempty cachedData then
        match parse cachedData with
        | Some data => Some [Send 200 (FromCache data)]
        | None => Some [Send 500 CacheFailure]
        end
      else None
  | inr None => None
  | inl err => Some [Send 500 CacheFailure]
  end.

(** A request that waits for its worker. *)
Record flight : Type := Flight {
  sent : list action;
  responseData : string;
  cache : redis
}.

(** The headers and the empty first chunk. *)
Definition opening : list action :=
  [SetHeader "Content-Type" "application/json";
   SetHeader "Transfer-Encoding" "chunked";
   SetHeader "Connection" "keep-alive";
   Write EmptyString].

(** [worker.on('message', ...)]; a message is a string, which
    [JSON.parse(JSON.stringify(message))] gives back as it is. *)
Definition on_message (message : option string) (f : flight) : flight :=
  match message with
  | Some data =>
      Flight (sent f ++ [Write data]) (responseData f +:+ data) (cache f)
  | None =>
      Flight (sent f ++ [End]) (responseData f) (cache f)
  end.

(** [worker.on('error', ...)] *)
Definition on_error (e : error) (f : flight) : flight :=
  Flight (sent f ++ [Send 500 WorkerFailure]) (responseData f) (cache f).

(** [worker.on('exit', ...)] at instant [now]; a rejected [set] is not
    handled and leaves the cache as it was. *)
Definition on_exit (now : Z) (code : Z) (f : flight) : flight :=
  if bool_decide (code ≠ 0) then f
  else
    match set_ex now cacheKey (responseData f) 300 (cache f) with
    | inr r => Flight (sent f) (responseData f) r
    | inl _ => f
    end.

Definition handle (now : Z) (ev : event) (f : flight) : flight :=
  match ev with
  | Message message => on_message message f
  | Error e => on_error e f
  | Exit code => on_exit now code f
  end.

(** The events of a worker, handled in order; [exit] happens at instant
    [ended]. *)
Definition deliver (ended : Z) (evs : list event) (f : flight) : flight :=
  foldl (λ f ev, handle ended ev f) f evs.

(** A request, from its arrival to the end of its worker, if any. *)
Record served : Type := Served {
  reply : list action;        (* what was done to [res] *)
  cache_after : redis;
  workers : nat;              (* [new Worker(...)] *)
  upstream : list request     (* the [axios.get] calls made *)
}.

(** [getSkinsByWorker] on a request that arrives at instant [now]; were a
    worker to run, its fetch would settle as [settled] and the thread
    would exit at instant [ended]. *)
Definition getSkinsByWorker `{JSON} (now : Z) (r : redis)
    (settled : fetched) (ended : Z) : served :=
  match probe now r with
  | Some answer => Served answer r 0 []
  | None =>
      let f := deliver ended (thread settled) (Flight opening EmptyString r) in
      Served (sent f) (cache f) 1 requests
  end.

(** The text the client has received: the chunks written, in order. *)
Definition streamed (reply : list action) : string :=
  foldl (λ text a, match a with Write chunk => text +:+ chunk | _ => text end)
        EmptyString reply.

(** Whether the stream was closed. *)
Definition closed (reply : list action) : bool :=
  existsb (λ a, match a with End => true | _ => false end) reply.

End SkinService.
Export SkinService.

(** ** A [JSON] object to run the examples with

    A small printer and reader of JSON text. Strings are written without
    escapes, and a number that is not whole is written as a fraction. *)
Module Codec.

Definition quote : ascii := ascii_of_nat 34.

Definition print_string (s : string) : string :=
  String quote (s +:+ String quote EmptyString).

Definition print_number (q : Q) : string :=
  if (Qden q =? 1)%positive then pretty (Qnum q)
  else pretty (Qnum q) +:+ "/" +:+ pretty (Qden q).

Fixpoint join (sep : string) (l : list string) : string :=
  match l with
  | [] => EmptyString
  | [x] => x
  | x :: l' => x +:+ sep +:+ join sep l'
  end.

Fixpoint print (v : json) : string :=
  match v with
  | JNull => "null"
  | JNum q => print_number q
  | JStr s => print_string s
  | JArr l => "[" +:+ join "," (map print l) +:+ "]"
  | JObj fields =>
      "{" +:+ join "," (map (λ kv, print_string kv.1 +:+ ":" +:+ print kv.2) fields) +:+ "}"
  end.

(** Reading: each reader takes the text left and gives what it read and
    the rest. *)
Definition digit (c : ascii) : option Z :=
  let n := Z.of_nat (nat_of_ascii c) in
  if bool_decide (48 ≤ n ≤ 57) then Some (n - 48) else None.

Fixpoint read_digits (acc : Z) (s : string) : Z * string :=
  match s with
  | String c s' =>
      match digit c with
      | Some d => read_digits (10 * acc + d) s'
      | None => (acc, s)
      end
  | EmptyString => (acc, s)
  end.

Definition starts_with_digit (s : string) : bool :=
  match s with
  | String c _ => bool_decide (is_Some (digit c))
  | EmptyString => false
  end.

Definition read_natural (s : string) : option (Z * string) :=
  if starts_with_digit s then Some (read_digits 0 s) else None.

Definition read_number (s : string) : option (Q * string) :=
  '(sign, s) ← Some (match s with
                     | String "-" s' => (-1, s')
                     | _ => (1, s)
                     end);
  '(n, s) ← read_natural s;
  match s with
  | String "/" s' =>
      '(d, s) ← read_natural s';
      if bool_decide (0 < d) then Some (Qmake (sign * n) (Z.to_pos d), s) else None
  | _ => Some (Qmake (sign * n) 1, s)
  end.

Fixpoint read_until_quote (s : string) : option (string * string) :=
  match s with
  | String c s' =>
      if Ascii.eqb c quote then Some (EmptyString, s')
      else '(x, rest) ← read_until_quote s'; Some (String c x, rest)
  | EmptyString => None
  end.

Definition read_string (s : string) : option (string * string) :=
  match s with
  | String c s' => if Ascii.eqb c quote then read_until_quote s' else None
  | EmptyString => None
  end.

Fixpoint read_value (fuel : nat) (s : string) : option (json * string) :=
  match fuel with
  | O => None
  | S fuel =>
      let fix elements (n : nat) (s : string) : option (list json * string) :=
        match n with
        | O => None
        | S n =>
            '(v, s) ← read_value fuel s;
            match s with
            | String "," s' => '(l, s) ← elements n s'; Some (v :: l, s)
            | String "]" s' => Some ([v], s')
            | _ => None
            end
        end in
      let fix members (n : nat) (s : string)
          : option (list (string * json) * string) :=
        match n with
        | O => None
        | S n =>
            '(k, s) ← read_string s;
            match s with
            | String ":" s' =>
                '(v, s) ← read_value fuel s';
                match s with
                | String "," s' => '(l, s) ← members n s'; Some ((k, v) :: l, s)
                | String "}" s' => Some ([(k, v)], s')
                | _ => None
                end
            | _ => None
            end
        end in
      match s with
      | String "n" (String "u" (String "l" (String "l" s'))) => Some (JNull, s')
      | String "[" (String "]" s') => Some (JArr [], s')
      | String "[" s' => '(l, s) ← elements (String.length s') s'; Some (JArr l, s)
      | String "{" (String "}" s') => Some (JObj [], s')
      | String "{" s' => '(l, s) ← members (String.length s') s'; Some (JObj l, s)
      | String c _ =>
          if Ascii.eqb c quote then '(x, s) ← read_string s; Some (JStr x, s)
          else '(q, s) ← read_number s; Some (JNum q, s)
      | EmptyString => None
      end
  end.

Definition read (s : string) : option json :=
  '(v, rest) ← read_value (S (String.length s)) s;
  match rest with EmptyString => Some v | _ => None end.

Definition codec : JSON := {| stringify := print; parse := read |}.

End Codec.

(** ** The data of the examples *)
Module Demo.

(** The rows [insertDefaultRows] seeds: three accounts with balance 1000;
    [hash] stands for the stored [bcrypt] hash. *)
Definition hash : string := "$2a$".

Definition users : gmap Z account :=
  list_to_map
    [(1, Account 1000 "test@example.com" hash);
     (2, Account 1000 "test2@example.com" hash);
     (3, Account 1000 "test3@example.com" hash)].

(** The seeded table on an idle session that fails nothing. *)
Definition seeded : store := Store users None [] [].

(** The statements of two requests that arrive together reach the session
    alternately. *)
Definition alternating : list bool :=
  [true; false; true; false; true; false; true; false].

(** A cache that is up and empty. *)
Definition cold : redis := Redis ∅ true.

(** A cache that is down. *)
Definition down : redis := Redis ∅ false.

(** The listing of the specification's scenario: one item, price 10 when
    not tradable, none when tradable. *)
Definition nonTradable : list item := [Item "A" (Some 10%Q)].
Definition tradable : list item := [Item "A" None].


(** The catalog of the scenario, as the task serializes it. *)
Definition catalog : json := JArr (skin_json <$> merge nonTradable tradable).

(** A cache that holds the catalog until instant 302. *)
Definition warm : redis :=
  Redis {[cacheKey := (Codec.print catalog, 302)]} true.

End Demo.

(** ** How a debit can end *)
Module Endings.

(** The three ways a call [deductBalance(userId, amount)] on store [s] can
    end: with the debit committed, with a refusal, or with the exception
    of a [ROLLBACK] that failed. *)
Inductive ending (s : store) (userId amount : jsnum)
    : outcome debit_result * store → Prop :=
| Committed uid a acc s' :
    userId = Fin uid → amount = Fin a →
    table s !! uid = Some acc → a ≤ balance acc →
    table s' = <[uid := set_balance (balance acc - a) acc]> (table s) →
    tx s' = None → head (log s') = Some COMMIT →
    ending s userId amount
      (Returned (Debited userId (Fin (balance acc - a))), s')
| Declined msg s' :
    table s' = table s → tx s' = None → head (log s') = Some ROLLBACK →
    ending s userId amount (Returned (Refused msg), s')
| Broken e s0 s' :
    exec ROLLBACK s0 = (inl e, s') → table s' = table s →
    ending s userId amount (Raised e, s').

End Endings.
Export Endings.

(** ** [authJwt] (src/middlewares/authjwt.ts) *)
Module AuthJwt.

(** [s.split(sep)] for a separator of one character: the pieces of [s]
    between the occurrences of [sep]. *)
Fixpoint split (sep : ascii) (s : string) : list string :=
  match s with
  | EmptyString => [EmptyString]
  | String c rest =>
      if Ascii.eqb c sep then EmptyString :: split sep rest
      else
        match split sep rest with
        | piece :: pieces => String c piece :: pieces
        | [] => [String c EmptyString]
        end
  end.

(** [verify(token, secret)] of [jsonwebtoken]: the decoded payload (the
    user's id), or [None] where it throws. *)
Class JWT : Type := {
  verify : string → string → option Z
}.

(** The two refusals of the hook. *)
Inductive denial : Type :=
| NoToken        (* 403, 'Access denied! No token provided.' *)
| InvalidToken.  (* 401, 'Unauthorized! Invalid token.' *)

Definition denial_status (d : denial) : Z :=
  match d with NoToken => 403 | InvalidToken => 401 end.

(** [process.env.JWT_SECRET || 'secret'] *)
Definition jwtSecret (JWT_SECRET : option string) : string :=
  match JWT_SECRET with
  | Some (String c rest) => String c rest
  | _ => "secret"
  end.

(** [req.headers['authorization']?.split(' ')[1]] *)
Definition token_of (authorization : option string) : option string :=
  authorization ≫= λ header, split " " header !! 1%nat.

(** The hook: the refusal it sends, or [None] when it returns without
    sending, and the request goes on to its handler. *)
Definition authJwt `{JWT} (JWT_SECRET authorization : option string)
  : option denial :=
  match token_of authorization with
  | Some (String c rest) =>
      match verify (String c rest) (jwtSecret JWT_SECRET) with
      | Some decoded => None
      | None => Some InvalidToken
      end
  | _ => Some NoToken
  end.

End AuthJwt.
Export AuthJwt.

(** ** The route [POST /users/buy] (src/routes/user.route.ts) *)
Module UserRoute.
Import UserController.

Inductive answer : Type :=
| Denied (d : denial)
| Handled (r : response).

(** [app.post('/buy', { preHandler: authJwt }, UserController.simpleBuyItem)]:
    a hook that has sent a reply ends the request; otherwise the handler
    runs. *)
Definition buy `{JWT} (JWT_SECRET authorization : option string) (b : body)
  : prog answer :=
  match authJwt JWT_SECRET authorization with
  | Some d => mret (Denied d)
  | None => r ← simpleBuyItem b; mret (Handled r)
  end.

End UserRoute.

(** ** [SkinsRepository] (src/repository/skins.repository.ts) *)
Module SkinsRepository.

(** [array.slice(start, end)]: a negative index counts from the end, and
    both are clamped to the array. *)
Definition slice {A} (start stop : Z) (array : list A) : list A :=
  let len := Z.of_nat (length array) in
  let clamp (k : Z) := if k <? 0 then Z.max (len + k) 0 else Z.min k len in
  take (Z.to_nat (clamp stop - clamp start)) (drop (Z.to_nat (clamp start)) array).

(** The loop of [chunkArray], from index [i] with the chunks pushed so
    far; [fuel] bounds the number of turns, and the result is [None] when
    the loop has not ended within it. *)
Fixpoint chunk_loop {A} (fuel : nat) (array : list A) (chunkSize i : Z)
    (chunks : list (list A)) : option (list (list A)) :=
  if bool_decide (i < Z.of_nat (length array)) then
    match fuel with
    | O => None
    | S fuel =>
        chunk_loop fuel array chunkSize (i + chunkSize)
          (chunks ++ [slice i (i + chunkSize) array])%list
    end
  else Some chunks.

(** [chunkArray(array, chunkSize)]; one turn per element is allowed, which
    is enough whenever the loop ends at all. *)
Definition chunkArray {A} (array : list A) (chunkSize : Z)
  : option (list (list A)) :=
  chunk_loop (length array) array chunkSize 0 [].

(** A value bound to a placeholder. *)
Inductive param : Type :=
| PString (s : string)
| PNumber (q : Q)
| PNull.

(** The two statements on [items] that carry placeholders: each [nat] is
    the number [k] of a placeholder [$k]. *)
Inductive statement : Type :=
| INSERT_ITEMS (tuples : list (nat * nat * nat))
    (* INSERT INTO items (name, min_price_non_tradable, min_price_tradable)
       VALUES ($a, $b, $c), ... RETURNING * *)
| SELECT_ITEMS (limit offset : option nat).
    (* SELECT name, min_price_non_tradable, min_price_tradable FROM items
       [LIMIT $l] [OFFSET $o] *)

Definition placeholder (k : nat) : string := "$" +:+ pretty k.

Definition tuple_text (t : nat * nat * nat) : string :=
  "(" +:+ placeholder t.1.1 +:+ ", " +:+ placeholder t.1.2 +:+ ", "
      +:+ placeholder t.2 +:+ ")".

(** The text of a statement, as the repository writes it. *)
Definition text (q : statement) : string :=
  match q with
  | INSERT_ITEMS tuples =>
      "
                INSERT INTO items (name, min_price_non_tradable, min_price_tradable)
                VALUES " +:+ Codec.join ", " (tuple_text <$> tuples) +:+ "
                RETURNING *
            "
  | SELECT_ITEMS limit offset =>
      "SELECT name, min_price_non_tradable, min_price_tradable FROM items"
      +:+ from_option (λ k, " LIMIT " +:+ placeholder k) EmptyString limit
      +:+ from_option (λ k, " OFFSET " +:+ placeholder k) EmptyString offset
  end.

(** The [items] table: its rows in the order the server scans them, each
    with its [id]; the next value of the [SERIAL] sequence; the statements
    received (latest first); and, statement by statement, whether the
    server fails it. *)
Record items_db : Type := ItemsDb {
  items : list (Z * skin);
  serial : Z;
  received : list (statement * list param);
  refusals : list (option error)
}.

(** The value bound to [$k] *)
Definition bound (values : list param) (k : nat) : option param :=
  match k with O => None | S k' => values !! k' end.

(** A value for [name VARCHAR(255)] *)
Definition as_name (p : param) : option string :=
  match p with
  | PString s => if bool_decide (String.length s ≤ 255)%nat then Some s else None
  | _ => None
  end.

(** A value for a [FLOAT] column *)
Definition as_price (p : param) : option (option Q) :=
  match p with
  | PNumber q => Some (Some q)
  | PNull => Some None
  | PString _ => None
  end.

(** A value for [LIMIT] or [OFFSET]: a whole number that is not negative *)
Definition as_count (p : param) : option nat :=
  match p with
  | PNumber q =>
      if bool_decide (Qden q = 1%positive ∧ 0 ≤ Qnum q)
      then Some (Z.to_nat (Qnum q)) else None
  | _ => None
  end.

Definition row_of (values : list param) (t : nat * nat * nat) : option skin :=
  name ← bound values t.1.1 ≫= as_name;
  non_tradable ← bound values t.1.2 ≫= as_price;
  tradable ← bound values t.2 ≫= as_price;
  Some (Skin name non_tradable tradable).

(** A clause [LIMIT $k] or [OFFSET $k]: absent, or its count *)
Definition clause (values : list param) (k : option nat) : option (option nat) :=
  match k with
  | Some k => n ← bound values k ≫= as_count; Some (Some n)
  | None => Some None
  end.

(** Rows numbered from the sequence *)
Definition numbered (from : Z) (rows : list skin) : list (Z * skin) :=
  imap (λ i row, (from + Z.of_nat i, row)) rows.

(** What an accepted statement returns and leaves in the table; [None]
    where the server refuses it. *)
Definition effect (q : statement) (values : list param) (db : items_db)
  : option (list skin * list (Z * skin) * Z) :=
  match q with
  | INSERT_ITEMS tuples =>
      rows ← mapM (row_of values) tuples;
      Some (rows, (items db ++ numbered (serial db) rows)%list,
            serial db + Z.of_nat (length rows))
  | SELECT_ITEMS limit offset =>
      l ← clause values limit;
      o ← clause values offset;
      let rows := drop (default 0%nat o) (snd <$> items db) in
      Some (from_option (λ n, take n rows) rows l, items db, serial db)
  end.

Definition refused : error := "invalid input".

(** [this.repository.query(text, values)] *)
Definition query (q : statement) (values : list param) (db : items_db)
  : (error + list skin) * items_db :=
  match refusals db with
  | Some e :: rest =>
      (inl e, ItemsDb (items db) (serial db) ((q, values) :: received db) rest)
  | rest =>
      match effect q values db with
      | Some (rows, table', serial') =>
          (inr rows, ItemsDb table' serial' ((q, values) :: received db) (tail rest))
      | None =>
          (inl refused,
           ItemsDb (items db) (serial db) ((q, values) :: received db) (tail rest))
      end
  end.

(** [if (x)] on an optional count *)
Definition given (x : option Z) : bool :=
  match x with Some z => negb (z =? 0) | None => false end.

Definition number (z : Z) : param := PNumber (inject_Z z).

(** [getSkins(limit, offset)]: the statement and the values it sends. *)
Definition getSkins_query (limit offset : option Z) : statement * list param :=
  let params := [] in
  let '(l, params) :=
    if given limit then
      let params := (params ++ [number (default 0 limit)])%list in
      (Some (length params), params)
    else (None, params) in
  let '(o, params) :=
    if given offset then
      let params := (params ++ [number (default 0 offset)])%list in
      (Some (length params), params)
    else (None, params) in
  (SELECT_ITEMS l o, params).

Definition getSkins (limit offset : option Z) (db : items_db)
  : (error + list skin) * items_db :=
  let '(q, params) := getSkins_query limit offset in query q params db.

Definition price_param (p : option Q) : param :=
  from_option PNumber PNull p.

(** [valueStrings] of a chunk, as the numbers of its placeholders *)
Definition tuples_of (chunk : list skin) : list (nat * nat * nat) :=
  imap (λ index _, (index * 3 + 1, index * 3 + 2, index * 3 + 3)%nat) chunk.

(** [values] of a chunk *)
Definition values_of (chunk : list skin) : list param :=
  chunk ≫= λ s, [PString (name s);
                 price_param (min_price_non_tradable s);
                 price_param (min_price_tradable s)].

(** The [for] loop of [bulkInsertSkins]: a failed batch is thrown again
    and ends the loop. *)
Fixpoint insert_chunks (chunks : list (list skin)) (db : items_db)
  : outcome unit * items_db :=
  match chunks with
  | [] => (Returned (), db)
  | chunk :: rest =>
      match query (INSERT_ITEMS (tuples_of chunk)) (values_of chunk) db with
      | (inr _, db') => insert_chunks rest db'
      | (inl e, db') => (Raised e, db')
      end
  end.

(** [bulkInsertSkins(skins, batchSize = 500)]; [None] when the call does
    not return. *)
Definition bulkInsertSkins (skins : list skin) (batchSize : option Z)
    (db : items_db) : option (outcome unit * items_db) :=
  if bool_decide (length skins = 0%nat) then Some (Returned (), db)
  else
    chunkedSkins ← chunkArray skins (default 500 batchSize);
    Some (insert_chunks chunkedSkins db).

End SkinsRepository.

(** ** Conditions that the statements below use *)
Module Conditions.
Import UserController SkinsRepository.

(** Whether character [c] occurs in [s]. *)
Fixpoint occurs (c : ascii) (s : string) : bool :=
  match s with
  | EmptyString => false
  | String c' rest => Ascii.eqb c' c || occurs c rest
  end.

(** The test of [simpleBuyItem]:
    [!userId || !amount || isNaN(userId) || isNaN(amount) || amount <= 0] *)
Definition stopped (b : body) : bool :=
  falsy (userId b) || falsy (amount b) || isNaN (userId b)
  || isNaN (amount b) || le0 (amount b).

(** What an answer of [simpleBuyItem] on store [s] says about the table:
    200 reports a committed debit of a positive amount within the balance;
    400 and 500 leave the table as it was, and 500 carries the exception
    of a [ROLLBACK] that failed. The handler lets no exception out. *)
Definition sound (s : store) (b : body) (out : outcome response * store)
  : Prop :=
  match out.1 with
  | Returned (Deducted i bal) =>
      ∃ uid a acc,
        userId b = Some (Fin uid) ∧ amount b = Some (Fin a)
        ∧ table s !! uid = Some acc ∧ 0 < a ≤ balance acc
        ∧ i = Fin uid ∧ bal = Fin (balance acc - a)
        ∧ table out.2 = <[uid := set_balance (balance acc - a) acc]> (table s)
  | Returned (BadRequest msg) => table out.2 = table s
  | Returned (InternalServerError e) =>
      table out.2 = table s ∧ ∃ s0, exec ROLLBACK s0 = (inl e, out.2)
  | Raised e => False
  end.

(** All chunks but the last hold exactly [size] elements. *)
Definition full_but_last {A} (size : Z) (chunks : list (list A)) : Prop :=
  ∀ k c, chunks !! k = Some c → (S k < length chunks)%nat →
         Z.of_nat (length c) = size.

(** No statement on [items] is failed by the server. *)
Definition sound_items (db : items_db) : Prop :=
  Forall (λ f, f = None) (refusals db).

(** A row whose name fits [VARCHAR(255)]. *)
Definition fits (s : skin) : Prop := (String.length (name s) ≤ 255)%nat.

(** The statement and the values [bulkInsertSkins] sends for a chunk. *)
Definition batch (chunk : list skin) : statement * list param :=
  (INSERT_ITEMS (tuples_of chunk), values_of chunk).

End Conditions.
Export Conditions.

(** ** More data for the examples *)
Module Samples.
Import SkinsRepository.

Definition lost : error := "Connection terminated".

(** A verifier that accepts one token per secret, and another one that
    accepts the same tokens and decodes them to another user. *)
Definition signer : JWT :=
  {| verify token secret :=
       if String.eqb token ("signed-" +:+ secret) then Some 1 else None |}.
Definition other_signer : JWT :=
  {| verify token secret :=
       if String.eqb token ("signed-" +:+ secret) then Some 2 else None |}.

(** The seeded table on a session that fails its fourth statement, and on
    one that fails its first two. *)
Definition failing_commit : store :=
  Store Demo.users None [] [None; None; None; Some lost].

Definition rows : list skin :=
  [Skin "A" (Some 10%Q) None; Skin "B" None (Some 5%Q); Skin "C" None None].

(** An empty [items] table, one that holds the three rows, and an empty
    one on a server that fails its second statement. *)
Definition no_items : items_db := ItemsDb [] 1 [] [].
Definition stocked : items_db := ItemsDb (numbered 1 rows) 4 [] [].
Definition failing_second : items_db := ItemsDb [] 1 [] [None; Some lost].

(** What a worker may send before it ends. *)
Definition events : list event :=
  [Message (Some "[1,"); Error lost; Message (Some "2]"); Message None].

End Samples.

(* ================================================================== *)
(** * Properties *)

(** ** The session *)
Section Session.
Implicit Types (s : store) (q : sql).

Lemma healthy_tail s :
  healthy s → Forall (λ f, f = None) (tail (faults s)).
Proof.
  unfold healthy. destruct (faults s) as [|f fs]; simpl; [done|].
  by inversion 1.
Qed.

Lemma exec_healthy q s :
  healthy s →
  exec q s =
    match effect q s with
    | Some (rows, t, w) =>
        (inr rows, Store t w (q :: log s) (tail (faults s)))
    | None =>
        (inl invalid_input,
         Store (table s) (tx s) (q :: log s) (tail (faults s)))
    end.
Proof.
  unfold healthy, exec. destruct (faults s) as [|[e|] fs]; [done| |done].
  inversion 1; subst. discriminate.
Qed.

(** A failed statement changes neither the committed state nor the
    working copy. *)
Lemma exec_rejected q s e s' :
  exec q s = (inl e, s') → table s' = table s ∧ tx s' = tx s.
Proof.
  unfold exec.
  destruct (faults s) as [|[e0|] fs]; destruct (effect q s) as [[[rows t] w]|];
    intros [= <- <-]; done.
Qed.

End Session.

(** ** Running asynchronous code *)
Section Run.
Context {A B : Type}.
Implicit Types (s : store) (q : sql).

Lemma run_bind (p : prog A) (f : A → prog B) s :
  run (p ≫= f) s =
    match run p s with
    | (Returned a, s') => run (f a) s'
    | (Raised e, s') => (Raised e, s')
    end.
Proof.
  change (p ≫= f) with (bind p f).
  revert s. induction p as [a|e|q k IH]; intros s; simpl; [done..|].
  destruct (exec q s) as [r s']. apply IH.
Qed.

Lemma run_try_catch (p : prog A) (h : error → prog A) s :
  run (try_catch p h) s =
    match run p s with
    | (Returned a, s') => (Returned a, s')
    | (Raised e, s') => run (h e) s'
    end.
Proof.
  revert s. induction p as [a|e|q k IH]; intros s; simpl; [done..|].
  destruct (exec q s) as [r s']. apply IH.
Qed.

Lemma run_query q s :
  run (query q) s =
    match exec q s with
    | (inl e, s') => (Raised e, s')
    | (inr rows, s') => (Returned rows, s')
    end.
Proof. simpl. by destruct (exec q s) as [[e|rows] s']. Qed.

End Run.

Lemma run_query_healthy q s rows t w :
  healthy s → effect q s = Some (rows, t, w) →
  run (query q) s =
    (Returned rows, Store t w (q :: log s) (tail (faults s)))
  ∧ healthy (Store t w (q :: log s) (tail (faults s))).
Proof.
  intros Hs Hq. rewrite run_query, (exec_healthy _ _ Hs), Hq.
  split; [done|]. by apply healthy_tail.
Qed.

(** ** The balance ledger *)
Section Ledger.
Import UsersRepository.
Implicit Types (s : store) (uid a : Z) (acc : account).


Lemma run_getUserForUpdate s uid :
  healthy s →
  let s' := Store (table s) (tx s) (SELECT_FOR_UPDATE (Fin uid) :: log s)
              (tail (faults s)) in
  run (getUserForUpdate (Fin uid)) s =
    (Returned (from_option (λ acc, One (Row uid acc)) Undefined
                 (view s !! uid)), s')
  ∧ healthy s'.
Proof.
  intros Hs s'. unfold getUserForUpdate. rewrite run_bind.
  destruct (run_query_healthy (SELECT_FOR_UPDATE (Fin uid)) s _ _ _ Hs eq_refl)
    as [-> Hs'].
  split; [|done]. unfold select_rows. by destruct (view s !! uid).
Qed.

(** A debit of an account the session sees, when no statement fails. *)
Lemma run_deductBalance_found s uid a acc :
  healthy s → view s !! uid = Some acc →
  run (deductBalance (Fin uid) (Fin a)) s =
    if balance acc <? a then
      (Returned InsufficientBalance,
       Store (table s) None
         (ROLLBACK :: SELECT_FOR_UPDATE (Fin uid) :: BEGIN :: log s)
         (tail (tail (tail (faults s)))))
    else
      (Returned (Debited (Fin uid) (Fin (balance acc - a))),
       Store (alter (set_balance (balance acc - a)) uid (view s)) None
         (COMMIT :: UPDATE_BALANCE (Fin (balance acc - a)) (Fin uid)
            :: SELECT_FOR_UPDATE (Fin uid) :: BEGIN :: log s)
         (tail (tail (tail (tail (faults s)))))).
Proof.
  intros Hs Hacc.
  unfold deductBalance, begin, rollBack, commit, updateUserBalance.
  rewrite run_try_catch, run_bind.
  destruct (run_query_healthy BEGIN s _ _ _ Hs eq_refl) as [-> Hs1].
  rewrite run_bind.
  destruct (run_getUserForUpdate _ uid Hs1) as [-> Hs2].
  change (view (Store _ (Some (view s)) _ _)) with (view s). rewrite Hacc.
  cbn [from_option absent balance_of row_account Num.lt Num.sub].
  destruct (balance acc <? a).
  - rewrite run_bind.
    by destruct (run_query_healthy ROLLBACK _ _ _ _ Hs2 eq_refl) as [-> _].
  - rewrite run_bind.
    edestruct (run_query_healthy
                 (UPDATE_BALANCE (Fin (balance acc - a)) (Fin uid))
                 _ _ _ _ Hs2 eq_refl) as [-> Hs3].
    rewrite run_bind.
    by destruct (run_query_healthy COMMIT _ _ _ _ Hs3 eq_refl) as [-> _].
Qed.


Lemma exec_cases q s :
  let after t w := Store t w (q :: log s) (tail (faults s)) in
  (∃ e, exec q s = (inl e, after (table s) (tx s)))
  ∨ (∃ rows t w, effect q s = Some (rows, t, w)
                 ∧ exec q s = (inr rows, after t w)).
Proof.
  intros after. unfold exec.
  destruct (faults s) as [|[e|] fs]; [| by left; eexists |];
    (destruct (effect q s) as [[[rows t] w]|];
      [right; by eexists _, _, _ | left; by eexists]).
Qed.







End Ledger.

Section Ledger_rejections.
Import UsersRepository.
Implicit Types (s : store) (uid : Z).



End Ledger_rejections.

(** ** Two debits in flight *)
Section Concurrent_debits.
Import UsersRepository.
Implicit Types (s : store) (uid : Z) (acc : account).

(** Resuming a call and running what is left is running the call. *)
Lemma run_resume {A} (p : prog A) (s : store) :
  run (resume p s).1 (resume p s).2 = run p s.
Proof. destruct p as [a|e|q k]; simpl; [done..|]. by destruct (exec q s). Qed.

Lemma Forall_tail {A} (P : A → Prop) (l : list A) :
  Forall P l → Forall P (tail l).
Proof. destruct l; [done|]. by inversion 1. Qed.

Ltac healthy_now Hs :=
  unfold healthy; cbn [faults]; repeat apply Forall_tail; exact Hs.

Lemma interleave_first {A B} sched (p1 : prog A) (p2 : prog B) s :
  interleave (true :: sched) p1 p2 s
  = interleave sched (resume p1 s).1 p2 (resume p1 s).2.
Proof. simpl. by destruct (resume p1 s). Qed.

Lemma interleave_second {A B} sched (p1 : prog A) (p2 : prog B) s :
  interleave (false :: sched) p1 p2 s
  = interleave sched p1 (resume p2 s).1 (resume p2 s).2.
Proof. simpl. by destruct (resume p2 s). Qed.

Ltac turn Hs :=
  first [rewrite interleave_first | rewrite interleave_second];
  cbn [resume try_catch bind mbind prog_bind mret prog_ret];
  rewrite exec_healthy by healthy_now Hs;
  cbn [fst snd effect view tx table default from_option id log faults
       try_catch bind mbind prog_bind mret prog_ret].

Lemma set_balance_twice (b b' : Z) acc :
  set_balance b (set_balance b' acc) = set_balance b acc.
Proof. done. Qed.

(** Two debits of one account, each within its balance, whose statements
    reach a session that fails none alternately: both read the balance
    that was there, both return success, and the update of the second is
    the one committed. *)
Lemma interleave_alternating_debits s uid a1 a2 acc :
  healthy s → tx s = None → table s !! uid = Some acc →
  a1 ≤ balance acc → a2 ≤ balance acc →
  ∃ s',
    interleave Demo.alternating
      (deductBalance (Fin uid) (Fin a1)) (deductBalance (Fin uid) (Fin a2)) s
    = (Ret (Debited (Fin uid) (Fin (balance acc - a1))),
       Ret (Debited (Fin uid) (Fin (balance acc - a2))), s')
    ∧ table s' = <[uid := set_balance (balance acc - a2) acc]> (table s)
    ∧ tx s' = None.
Proof.
  intros Hs Hidle Hacc H1 H2.
  assert (Hlt1 : (balance acc <? a1) = false) by (apply Z.ltb_ge; lia).
  assert (Hlt2 : (balance acc <? a2) = false) by (apply Z.ltb_ge; lia).
  assert (Hview : view s = table s) by (unfold view; by rewrite Hidle).
  assert (Hsel : select_rows (table s) uid = [Row uid acc])
    by (unfold select_rows; by rewrite Hacc).
  unfold Demo.alternating, deductBalance, begin, commit, rollBack,
    updateUserBalance, getUserForUpdate, query.
  turn Hs. turn Hs. rewrite !Hview.
  turn Hs. rewrite Hsel. cbn [length].
  rewrite bool_decide_eq_false_2 by lia.
  cbn [head from_option mret prog_ret try_catch mbind prog_bind bind absent
       balance_of row_account Num.lt Num.sub]. rewrite Hlt1.
  turn Hs. rewrite Hsel. cbn [length].
  rewrite bool_decide_eq_false_2 by lia.
  cbn [head from_option mret prog_ret try_catch mbind prog_bind bind absent
       balance_of row_account Num.lt Num.sub]. rewrite Hlt2.
  turn Hs. turn Hs. turn Hs. turn Hs.
  eexists. split; [reflexivity|]. split; [|done]. cbn [table].
  apply map_eq. intros j. rewrite lookup_insert.
  destruct (decide (uid = j)) as [<-|Hne].
  - by rewrite !lookup_alter_eq, Hacc.
  - by rewrite !lookup_alter_ne.
Qed.

(** The same two debits in turn: the second one meets the balance the
    first one left. *)
Lemma in_turn_debits s uid a1 a2 acc :
  healthy s → tx s = None → table s !! uid = Some acc →
  a1 ≤ balance acc →
  ∃ t,
    in_turn (deductBalance (Fin uid) (Fin a1))
            (deductBalance (Fin uid) (Fin a2)) s
    = (Returned (Debited (Fin uid) (Fin (balance acc - a1))),
       Returned (if balance acc - a1 <? a2 then InsufficientBalance
                 else Debited (Fin uid) (Fin (balance acc - a1 - a2))),
       t).
Proof.
  intros Hs Hidle Hacc H1.
  assert (Hlt1 : (balance acc <? a1) = false) by (apply Z.ltb_ge; lia).
  assert (Hacc' : view s !! uid = Some acc) by (unfold view; by rewrite Hidle).
  unfold in_turn.
  rewrite (run_deductBalance_found s uid a1 acc Hs Hacc'), Hlt1.
  match goal with |- context [run _ ?s1] => set (s1' := s1) end.
  assert (Hs1 : healthy s1') by healthy_now Hs.
  assert (Hacc1 : view s1' !! uid = Some (set_balance (balance acc - a1) acc)).
  { unfold view. cbn [s1' tx table default from_option id].
    by rewrite lookup_alter_eq, Hacc'. }
  rewrite (run_deductBalance_found s1' uid a2 _ Hs1 Hacc1).
  cbn [set_balance balance].
  destruct (balance acc - a1 <? a2); by eexists.
Qed.

(** C3. Two debits of the same account are in flight together on an idle
    session that fails no statement; each amount is positive and within
    the balance. Then the two debits are not serialized: there is an
    interleaving of their statements (the alternating one) after which
    both have returned, and what they returned and left committed is what
    neither order of running them in turn gives. *)
Theorem concurrent_debits_not_serializable s uid a1 a2 acc :
  healthy s → tx s = None → table s !! uid = Some acc →
  0 < a1 ≤ balance acc → 0 < a2 ≤ balance acc →
  ¬ serializable (deductBalance (Fin uid) (Fin a1))
                 (deductBalance (Fin uid) (Fin a2)) s.
Proof.
  intros Hs Hidle Hacc H1 H2 Hser.
  destruct (interleave_alternating_debits s uid a1 a2 acc Hs Hidle Hacc)
    as (s' & Hrun & _); [lia..|].
  destruct (in_turn_debits s uid a1 a2 acc Hs Hidle Hacc) as [t12 H12]; [lia|].
  destruct (in_turn_debits s uid a2 a1 acc Hs Hidle Hacc) as [t21 H21]; [lia|].
  destruct (Hser _ _ _ _ Hrun) as [H|H].
  - rewrite H12 in H. destruct (balance acc - a1 <? a2); [discriminate H|].
    injection H as H _. lia.
  - rewrite H21 in H. destruct (balance acc - a2 <? a1); [discriminate H|].
    injection H as H _. lia.
Qed.

Lemma concurrent_debits_not_serializable_witness :
  let acc := Account 1000 "test@example.com" Demo.hash in
  (healthy Demo.seeded ∧ tx Demo.seeded = None
   ∧ table Demo.seeded !! 1 = Some acc
   ∧ 0 < 400 ≤ balance acc ∧ 0 < 300 ≤ balance acc)
  ∧ ¬ serializable (deductBalance (Fin 1) (Fin 400))
                   (deductBalance (Fin 1) (Fin 300)) Demo.seeded.
Proof.
  intros acc.
  assert (Hh : healthy Demo.seeded) by constructor.
  assert (Hacc : table Demo.seeded !! 1 = Some acc) by reflexivity.
  assert (H1 : 0 < 400 ≤ balance acc) by (simpl; lia).
  assert (H2 : 0 < 300 ≤ balance acc) by (simpl; lia).
  split; [done|].
  exact (concurrent_debits_not_serializable
           Demo.seeded 1 400 300 acc Hh eq_refl Hacc H1 H2).
Defined.

(** Debits of 400 and 300 from account 1, which holds 1000: interleaved,
    both return success (new balances 600 and 700) and 700 is committed;
    in turn, in either order, they leave 300. *)
Example concurrent_debits_lose_an_update :
  let d1 := deductBalance (Fin 1) (Fin 400) in
  let d2 := deductBalance (Fin 1) (Fin 300) in
  (∃ s', interleave Demo.alternating d1 d2 Demo.seeded
         = (Ret (Debited (Fin 1) (Fin 600)),
            Ret (Debited (Fin 1) (Fin 700)), s')
         ∧ tx s' = None
         ∧ log s' = [COMMIT; COMMIT;
                     UPDATE_BALANCE (Fin 700) (Fin 1);
                     UPDATE_BALANCE (Fin 600) (Fin 1);
                     SELECT_FOR_UPDATE (Fin 1); SELECT_FOR_UPDATE (Fin 1);
                     BEGIN; BEGIN]
         ∧ balance <$> table s' !! 1 = Some 700)
  ∧ (∃ t, in_turn d1 d2 Demo.seeded
          = (Returned (Debited (Fin 1) (Fin 600)),
             Returned (Debited (Fin 1) (Fin 300)), t)
          ∧ balance <$> t !! 1 = Some 300)
  ∧ (∃ t, in_turn d2 d1 Demo.seeded
          = (Returned (Debited (Fin 1) (Fin 700)),
             Returned (Debited (Fin 1) (Fin 300)), t)
          ∧ balance <$> t !! 1 = Some 300).
Proof.
  intros d1 d2. repeat split.
  - eexists. split; [vm_compute; reflexivity|]. repeat split; reflexivity.
  - eexists. split; [vm_compute; reflexivity|reflexivity].
  - eexists. split; [vm_compute; reflexivity|reflexivity].
Qed.

(** Two debits of 600 from the same 1000, in flight together: both return
    success with new balance 400, though the balance covers only one; in
    turn, the second is refused. *)
Example concurrent_debits_spend_twice :
  let d := deductBalance (Fin 1) (Fin 600) in
  (∃ s', interleave Demo.alternating d d Demo.seeded
         = (Ret (Debited (Fin 1) (Fin 400)),
            Ret (Debited (Fin 1) (Fin 400)), s')
         ∧ balance <$> table s' !! 1 = Some 400)
  ∧ (∃ t, in_turn d d Demo.seeded
          = (Returned (Debited (Fin 1) (Fin 400)),
             Returned InsufficientBalance, t)).
Proof.
  intros d. split.
  - eexists. split; [vm_compute; reflexivity|reflexivity].
  - eexists. vm_compute. reflexivity.
Qed.

End Concurrent_debits.

(** ** The boundary of the ledger *)
Section Boundary.
Import UserController.




End Boundary.

(** ** The fetch task *)
Section Fetch.
Context `{JSON}.
Implicit Types (nt tr : list item) (i : nat).

Lemma or_null_None (x : option Q) :
  or_null x = None ↔ x = None ∨ ∃ p, x = Some p ∧ (p == 0)%Q.
Proof.
  destruct x as [p|]; simpl; [|by split; [left|]].
  destruct (Qeq_bool p 0) eqn:Hp.
  - split; [|done]. intros _. right. exists p. split; [done|].
    by apply Qeq_bool_iff.
  - split; [done|]. intros [|(p' & [= <-] & Hz)]; [done|].
    apply Qeq_bool_iff in Hz. congruence.
Qed.


Lemma lookup_merge nt tr i :
  merge nt tr !! i
  = (λ item, Skin (market_hash_name item) (min_price item)
                  (or_null (tr !! i ≫= min_price))) <$> nt !! i.
Proof. unfold merge. by rewrite list_lookup_imap. Qed.


(** C10. The merged list is as long as the non-tradable listing, and its
    record at position [i] has [null] for the tradable price exactly when
    the tradable listing has no item at [i], or that item has no minimum
    price, or its minimum price equals [0]. *)
Theorem merge_length_and_null_price nt tr :
  length (merge nt tr) = length nt
  ∧ ∀ i s, merge nt tr !! i = Some s →
      (min_price_tradable s = None
       ↔ tr !! i = None
         ∨ ∃ t, tr !! i = Some t
                ∧ (min_price t = None
                   ∨ ∃ p, min_price t = Some p ∧ (p == 0)%Q)).
Proof.
  split; [apply length_imap|].
  intros i s. rewrite lookup_merge.
  destruct (nt !! i) as [item|]; [|done]. intros [= <-]. simpl.
  rewrite or_null_None. destruct (tr !! i) as [t|]; simpl.
  - split.
    + intros [Hn|(p & Hp & Hz)]; right; exists t; (split; [done|]);
        [by left | right; by exists p].
    + intros [|(t' & [= <-] & [Hn|(p & Hp & Hz)])]; [done|by left|].
      right. by exists p.
  - split; [by left|]. by left.
Qed.

End Fetch.

(** A tradable price of [0] is reported as [null], as an absent one is;
    and a listing that is longer than the tradable one gets [null]. *)
Lemma merge_length_and_null_price_witness :
  let nt := [Item "A" (Some 10%Q); Item "B" (Some 4%Q); Item "C" None] in
  let tr := [Item "A" (Some 0%Q); Item "B" (Some 5%Q)] in
  merge nt tr = [Skin "A" (Some 10%Q) None; Skin "B" (Some 4%Q) (Some 5%Q);
                 Skin "C" None None]
  ∧ (min_price_tradable (Skin "A" (Some 10%Q) None) = None
     ↔ tr !! 0%nat = None
       ∨ ∃ t, tr !! 0%nat = Some t
              ∧ (min_price t = None
                 ∨ ∃ p, min_price t = Some p ∧ (p == 0)%Q)).
Proof.
  intros nt tr. split; [reflexivity|].
  exact (proj2 (merge_length_and_null_price nt tr) 0%nat _ eq_refl).
Defined.


(** ** The cache pipeline *)
Section Pipeline.
Context `{JSON}.
Implicit Types (r : redis) (now ended later : Z) (settled : fetched).

Lemma probe_miss_reachable now r : probe now r = None → reachable r = true.
Proof.
  unfold probe, get. destruct (reachable r); [done|discriminate].
Qed.

(** The exit handler writes the key exactly on exit code [0]. *)
Lemma on_exit_cache now code f :
  reachable (cache f) = true →
  cache (on_exit now code f)
  = if bool_decide (code = 0) then
      Redis (<[cacheKey := (responseData f, now + 300)]> (entries (cache f)))
            true
    else cache f.
Proof.
  intros Hup. unfold on_exit, set_ex. rewrite Hup.
  repeat case_bool_decide; done.
Qed.

(** Events other than an exit with code [0] leave the cache as it is: a
    worker that ends with another code populates nothing. *)
Lemma deliver_cache ended (evs : list event) (f : flight) :
  Forall (λ ev, ev ≠ Exit 0) evs →
  cache (deliver ended evs f) = cache f.
Proof.
  revert f. induction evs as [|ev evs IH]; intros f Hevs; [done|].
  inversion Hevs as [|? ? Hev Hrest]; subst. simpl. rewrite (IH _ Hrest).
  destruct ev as [[data|]|e|code]; simpl; [done..|].
  unfold on_exit. case_bool_decide; [done|]. by subst code.
Qed.

(** The request that finds a stored value. *)
Lemma getSkinsByWorker_hit now r settled ended (cachedData : string) :
  get now cacheKey r = inr (Some cachedData) → cachedData ≠ EmptyString →
  getSkinsByWorker now r settled ended
  = Served [match parse cachedData with
            | Some data => Send 200 (FromCache data)
            | None => Send 500 CacheFailure
            end] r 0 [].
Proof.
  intros Hget Hne. unfold getSkinsByWorker, probe. rewrite Hget.
  destruct cachedData as [|c rest]; [done|]. simpl.
  by destruct (parse (String c rest)).
Qed.

(** C8. A request whose lookup of the key gives a stored (non-empty) value
    is answered at once from that value: [JSON.parse] of it is sent with
    status 200 (500 if it does not parse); no worker is made, no request
    goes upstream, whatever the upstream would have answered, and the
    cache is left as it was. *)
Theorem cache_hit_spawns_no_worker now r settled ended (cachedData : string) :
  get now cacheKey r = inr (Some cachedData) → cachedData ≠ EmptyString →
  let out := getSkinsByWorker now r settled ended in
  reply out = [match parse cachedData with
               | Some data => Send 200 (FromCache data)
               | None => Send 500 CacheFailure
               end]
  ∧ workers out = 0%nat
  ∧ upstream out = []
  ∧ cache_after out = r.
Proof.
  intros Hget Hne out. subst out.
  by rewrite (getSkinsByWorker_hit _ _ _ _ _ Hget Hne).
Qed.

(** C9. A request whose lookup of the key fails is answered 500 (cache);
    no worker is made, no request goes upstream, and the cache is left as
    it was. *)
Theorem cache_failure_fails_fast now r settled ended (e : error) :
  get now cacheKey r = inl e →
  let out := getSkinsByWorker now r settled ended in
  reply out = [Send 500 CacheFailure]
  ∧ workers out = 0%nat
  ∧ upstream out = []
  ∧ cache_after out = r.
Proof.
  intros Hget out. subst out. unfold getSkinsByWorker, probe. by rewrite Hget.
Qed.

(** The request that misses, on a fetch that fails. *)
Lemma getSkinsByWorker_rejected now r message ended :
  probe now r = None →
  getSkinsByWorker now r (Rejected message) ended
  = Served (opening ++ [Write (stringify (error_json message))])
      (Redis (<[cacheKey := (stringify (error_json message), ended + 300)]>
                (entries r)) true)
      1 requests.
Proof.
  intros Hmiss. pose proof (probe_miss_reachable _ _ Hmiss) as Hup.
  unfold getSkinsByWorker. rewrite Hmiss.
  cbn [thread fetchItems fmap list_fmap app deliver foldl handle on_message
       sent responseData cache].
  unfold on_exit, set_ex. cbn [sent responseData cache]. rewrite Hup.
  by case_bool_decide.
Qed.

(** The request that misses, on a fetch that succeeds. *)
Lemma getSkinsByWorker_responses now r nt tr ended :
  probe now r = None →
  let text := stringify (JArr (skin_json <$> merge nt tr)) in
  getSkinsByWorker now r (Responses nt tr) ended
  = Served (opening ++ [Write text; End])
      (Redis (<[cacheKey := (text, ended + 300)]> (entries r)) true)
      1 requests.
Proof.
  intros Hmiss text. pose proof (probe_miss_reachable _ _ Hmiss) as Hup.
  unfold getSkinsByWorker. rewrite Hmiss.
  cbn [thread fetchItems fmap list_fmap app deliver foldl handle on_message
       sent responseData cache].
  unfold on_exit, set_ex. cbn [sent responseData cache]. rewrite Hup.
  case_bool_decide; [done|]. by rewrite <- app_assoc.
Qed.

(** C2, where the code departs from it. A request misses and its fetch
    fails: the task posts the error object and ends with exit code 0, and
    the service writes the key, with the error object as its value and a
    lifetime of 300 seconds; the stream to the client is never closed. *)
Theorem failed_fetch_populates_cache now r message ended :
  probe now r = None →
  let out := getSkinsByWorker now r (Rejected message) ended in
  entries (cache_after out) !! cacheKey
  = Some (stringify (error_json message), ended + 300)
  ∧ (∀ later, later < ended + 300 →
       get later cacheKey (cache_after out)
       = inr (Some (stringify (error_json message))))
  ∧ streamed (reply out) = stringify (error_json message)
  ∧ closed (reply out) = false.
Proof.
  intros Hmiss out. subst out.
  rewrite (getSkinsByWorker_rejected _ _ _ _ Hmiss).
  cbn [cache_after reply entries]. rewrite lookup_insert_eq.
  split; [done|]. split.
  - intros later Hlater. unfold get. cbn [reachable entries].
    rewrite lookup_insert_eq. by rewrite bool_decide_eq_true_2.
  - done.
Qed.

(** What the service accumulates for the cache is what it has written to
    the client, whatever the worker sends. *)
Lemma handle_responseData ended (ev : event) (f : flight) :
  responseData f = streamed (sent f) →
  responseData (handle ended ev f) = streamed (sent (handle ended ev f)).
Proof.
  intros Hf. destruct ev as [[data|]|e|code]; simpl.
  - unfold streamed. rewrite foldl_app. simpl. by rewrite Hf.
  - unfold streamed. rewrite foldl_app. simpl. by rewrite Hf.
  - unfold streamed. rewrite foldl_app. simpl. by rewrite Hf.
  - unfold on_exit. case_bool_decide; [done|].
    by destruct (set_ex ended cacheKey (responseData f) 300 (cache f)).
Qed.

Lemma deliver_responseData ended (evs : list event) (f : flight) :
  responseData f = streamed (sent f) →
  responseData (deliver ended evs f) = streamed (sent (deliver ended evs f)).
Proof.
  revert f. induction evs as [|ev evs IH]; intros f Hf; [done|].
  simpl. apply IH. by apply handle_responseData.
Qed.

(** C6. A request misses, its fetch succeeds and the worker exits at
    instant [ended]; a later request arrives before [ended + 300]. The
    value then read from the key is, character for character, the text
    that was streamed to the first client; deserialized, both are the
    merged list, and that list is what the later request is answered. The
    round trip of [JSON] on this list is assumed of the platform. *)
Theorem cached_catalog_is_streamed_catalog
    now r nt tr ended later settled' ended' :
  let items := JArr (skin_json <$> merge nt tr) in
  probe now r = None → later < ended + 300 →
  parse (stringify items) = Some items → stringify items ≠ EmptyString →
  let first := getSkinsByWorker now r (Responses nt tr) ended in
  let second := getSkinsByWorker later (cache_after first) settled' ended' in
  get later cacheKey (cache_after first) = inr (Some (streamed (reply first)))
  ∧ closed (reply first) = true
  ∧ parse (streamed (reply first)) = Some items
  ∧ reply second = [Send 200 (FromCache items)]
  ∧ workers second = 0%nat.
Proof.
  intros items Hmiss Hlater Hround Hne first second.
  assert (Hget : get later cacheKey (cache_after first)
                 = inr (Some (stringify items))).
  { subst first. rewrite (getSkinsByWorker_responses _ _ _ _ _ Hmiss).
    unfold get. cbn [cache_after reachable entries].
    rewrite lookup_insert_eq. by rewrite bool_decide_eq_true_2. }
  assert (Htext : streamed (reply first) = stringify items).
  { subst first. by rewrite (getSkinsByWorker_responses _ _ _ _ _ Hmiss). }
  assert (Hclosed : closed (reply first) = true).
  { subst first. by rewrite (getSkinsByWorker_responses _ _ _ _ _ Hmiss). }
  rewrite Htext. split; [done|]. split; [done|]. split; [done|].
  subst second.
  rewrite (getSkinsByWorker_hit later _ settled' ended' _ Hget Hne).
  by rewrite Hround.
Qed.

End Pipeline.

(** ** The pipeline on the data of the examples *)
Section Pipeline_examples.
Import Demo.

(** The scenario of the specification: the cache is empty, the fetch gives
    the one item and ends well. The client gets the headers, the one batch
    and the end of the stream; the cache holds the batch for 300 seconds;
    two requests went upstream. *)
Example getSkinsByWorker_scenario :
  @getSkinsByWorker Codec.codec 0 cold (Responses nonTradable tradable) 2
  = Served (opening ++ [Write (Codec.print catalog); End])
      (Redis {[cacheKey := (Codec.print catalog, 302)]} true)
      1 [Get 0; Get 1].
Proof. vm_compute. reflexivity. Qed.

Lemma cache_hit_spawns_no_worker_witness :
  let out := @getSkinsByWorker Codec.codec 100 warm (Rejected "timeout") 101 in
  (get 100 cacheKey warm = inr (Some (Codec.print catalog))
   ∧ Codec.print catalog ≠ EmptyString)
  ∧ reply out = [Send 200 (FromCache catalog)]
  ∧ workers out = 0%nat
  ∧ upstream out = []
  ∧ cache_after out = warm.
Proof.
  intros out.
  assert (Hget : get 100 cacheKey warm = inr (Some (Codec.print catalog)))
    by reflexivity.
  assert (Hne : Codec.print catalog ≠ EmptyString)
    by (vm_compute; discriminate).
  split; [done|].
  exact (@cache_hit_spawns_no_worker Codec.codec 100 warm (Rejected "timeout")
           101 _ Hget Hne).
Defined.

Lemma cache_failure_fails_fast_witness :
  let out := @getSkinsByWorker Codec.codec 0 down
               (Responses nonTradable tradable) 2 in
  get 0 cacheKey down = inl unreachable
  ∧ reply out = [Send 500 CacheFailure]
  ∧ workers out = 0%nat
  ∧ upstream out = []
  ∧ cache_after out = down.
Proof.
  intros out.
  assert (Hget : get 0 cacheKey down = inl unreachable) by reflexivity.
  split; [done|].
  exact (@cache_failure_fails_fast Codec.codec 0 down
           (Responses nonTradable tradable) 2 _ Hget).
Defined.

Lemma failed_fetch_populates_cache_witness :
  let out := @getSkinsByWorker Codec.codec 0 cold (Rejected "timeout") 2 in
  @probe Codec.codec 0 cold = None
  ∧ entries (cache_after out) !! cacheKey
    = Some (Codec.print (error_json "timeout"), 302)
  ∧ (∀ later, later < 302 →
       get later cacheKey (cache_after out)
       = inr (Some (Codec.print (error_json "timeout"))))
  ∧ streamed (reply out) = Codec.print (error_json "timeout")
  ∧ closed (reply out) = false.
Proof.
  intros out.
  assert (Hmiss : @probe Codec.codec 0 cold = None) by reflexivity.
  split; [done|].
  exact (@failed_fetch_populates_cache Codec.codec 0 cold "timeout" 2 Hmiss).
Defined.

Lemma cached_catalog_is_streamed_catalog_witness :
  let first := @getSkinsByWorker Codec.codec 0 cold
                 (Responses nonTradable tradable) 2 in
  let second := @getSkinsByWorker Codec.codec 301 (cache_after first)
                  (Rejected "timeout") 303 in
  (@probe Codec.codec 0 cold = None ∧ 301 < 2 + 300
   ∧ Codec.read (Codec.print catalog) = Some catalog
   ∧ Codec.print catalog ≠ EmptyString)
  ∧ get 301 cacheKey (cache_after first) = inr (Some (streamed (reply first)))
  ∧ closed (reply first) = true
  ∧ Codec.read (streamed (reply first)) = Some catalog
  ∧ reply second = [Send 200 (FromCache catalog)]
  ∧ workers second = 0%nat.
Proof.
  intros first second.
  assert (Hmiss : @probe Codec.codec 0 cold = None) by reflexivity.
  assert (Hlater : 301 < 2 + 300) by lia.
  assert (Hround : Codec.read (Codec.print catalog) = Some catalog)
    by (vm_compute; reflexivity).
  assert (Hne : Codec.print catalog ≠ EmptyString)
    by (vm_compute; discriminate).
  split; [done|].
  exact (@cached_catalog_is_streamed_catalog Codec.codec 0 cold
           nonTradable tradable 2 301 (Rejected "timeout") 303
           Hmiss Hlater Hround Hne).
Defined.

End Pipeline_examples.

(* ================================================================== *)
(** * Further properties of the code *)

(** ** The ledger, whatever the session fails *)
Section Ledger_endings.
Import UsersRepository.
Implicit Types (s : store) (uid : Z) (acc : account) (userId amount : jsnum).

Lemma run_query_cases q s :
  let after t w := Store t w (q :: log s) (tail (faults s)) in
  (∃ e, exec q s = (inl e, after (table s) (tx s))
        ∧ run (query q) s = (Raised e, after (table s) (tx s)))
  ∨ (∃ rows t w, effect q s = Some (rows, t, w)
                 ∧ run (query q) s = (Returned rows, after t w)).
Proof.
  intros after. rewrite run_query.
  destruct (exec_cases q s) as [[e He]|(rows & t & w & Heff & He)]; rewrite He;
    [left; by eexists|right; by eexists _, _, _].
Qed.

Ltac await q s :=
  rewrite ?run_bind;
  destruct (run_query_cases q s)
    as [(?e & ?Hexec & ->)|(?rows & ?t & ?w & ?Heff & ->)];
  cbn [fst snd]; [|cbn [effect] in Heff].

Ltac returned :=
  change (run (mret ?x) ?s) with (Returned x, s); cbn [fst snd].

(** The catch clause, entered on a session whose committed table is that
    of [s]. *)
Lemma catch_ending s userId amount s1 (e : error) :
  table s1 = table s →
  ending s userId amount
    (run (rollBack ≫= λ _, mret (Refused (Caught e))) s1).
Proof.
  intros Ht. unfold rollBack. await ROLLBACK s1.
  - by eapply Broken.
  - simplify_eq. returned. by apply Declined.
Qed.

Lemma deductBalance_ending s userId amount :
  tx s = None → ending s userId amount (run (deductBalance userId amount) s).
Proof.
  intros Hidle.
  assert (Hview : view s = table s) by (unfold view; by rewrite Hidle).
  unfold deductBalance. rewrite run_try_catch.
  unfold begin at 1. await BEGIN s; [by apply catch_ending|]. simplify_eq.
  rewrite Hview.
  set (s1 := Store (table s) (Some (table s)) _ _).
  unfold getUserForUpdate. rewrite run_bind.
  await (SELECT_FOR_UPDATE userId) s1; [by apply catch_ending|].
  destruct userId as [uid| | |]; try done. simplify_eq.
  cbn [s1 view tx table log faults default from_option id].
  set (s2 := Store (table s) (Some (table s)) _ _).
  unfold select_rows. destruct (table s !! uid) as [acc|] eqn:Hacc.
  - rewrite bool_decide_eq_false_2 by (simpl; lia). returned.
    cbn [head from_option absent balance_of row_account].
    destruct (Num.lt (Fin (balance acc)) amount) eqn:Hlt.
    + unfold rollBack at 1. await ROLLBACK s2; [by apply catch_ending|].
      simplify_eq. returned. by apply Declined.
    + unfold updateUserBalance.
      await (UPDATE_BALANCE (Num.sub (Fin (balance acc)) amount) (Fin uid)) s2;
        [by apply catch_ending|].
      destruct amount as [a| | |]; try done.
      cbn [Num.sub s2 tx view table default from_option id] in Heff.
      simplify_eq. cbn [s2 log faults].
      set (s3 := Store (table s) (Some _) _ _).
      unfold commit. await COMMIT s3; [by apply catch_ending|].
      simplify_eq. returned.
      simpl in Hlt. apply Z.ltb_ge in Hlt.
      eapply (Committed s (Fin uid) (Fin a) uid a acc); try done.
      cbn [table s3 view tx default from_option id].
      apply map_eq. intros j. rewrite lookup_alter, lookup_insert.
      case_decide; [|done]. subst j. by rewrite Hacc.
  - rewrite bool_decide_eq_false_2 by (simpl; lia). returned.
    cbn [head from_option absent].
    unfold rollBack at 1. await ROLLBACK s2; [by apply catch_ending|].
    simplify_eq. returned. by apply Declined.
Qed.

(** X1. Whatever statements the session fails, a debit on an idle session
    is all or nothing: either it returns success, for an account that
    exists and an amount within its balance, and the committed table is
    the old one with that balance lowered by the amount; or it reports no
    success and the committed table is the old one. *)
Theorem deductBalance_all_or_nothing s userId amount :
  tx s = None →
  let out := run (deductBalance userId amount) s in
  (∃ uid a acc,
     userId = Fin uid ∧ amount = Fin a
     ∧ table s !! uid = Some acc ∧ a ≤ balance acc
     ∧ out.1 = Returned (Debited userId (Fin (balance acc - a)))
     ∧ table out.2 = <[uid := set_balance (balance acc - a) acc]> (table s))
  ∨ ((∀ r, out.1 = Returned r → success r = false)
     ∧ table out.2 = table s).
Proof.
  intros Hidle out. subst out.
  destruct (deductBalance_ending s userId amount Hidle)
    as [uid a acc s' -> -> Hacc Hle Ht _ _|msg s' Ht _ _|e s0 s' _ Ht].
  - left. by exists uid, a, acc.
  - right. split; [|done]. by intros r [= <-].
  - right. split; [|done]. by intros r [=].
Qed.

(** X2. Whatever statements the session fails and whatever the amount
    is, a debit on an idle session leaves no committed balance negative if
    none was. *)
Theorem deductBalance_keeps_balances_nonnegative s userId amount :
  tx s = None →
  (∀ j acc, table s !! j = Some acc → 0 ≤ balance acc) →
  ∀ j acc,
    table (run (deductBalance userId amount) s).2 !! j = Some acc →
    0 ≤ balance acc.
Proof.
  intros Hidle Hpos j acc'.
  destruct (deductBalance_ending s userId amount Hidle)
    as [uid a acc s' -> -> Hacc Hle Ht _ _|msg s' Ht _ _|e s0 s' _ Ht];
    cbn [snd]; rewrite Ht; [|by apply Hpos..].
  rewrite lookup_insert. case_decide; [|by apply Hpos].
  intros [= <-]. simpl. lia.
Qed.

(** X3. A debit changes nothing but the balance of the account it is
    for: every other row of the committed table, and the email and the
    password of every row, are as before. *)
Theorem deductBalance_touches_one_balance s userId amount :
  tx s = None →
  let t' := table (run (deductBalance userId amount) s).2 in
  (∀ j, userId ≠ Fin j → t' !! j = table s !! j)
  ∧ (∀ j, email <$> t' !! j = email <$> table s !! j
          ∧ password <$> t' !! j = password <$> table s !! j).
Proof.
  intros Hidle t'. subst t'.
  destruct (deductBalance_ending s userId amount Hidle)
    as [uid a acc s' -> -> Hacc Hle Ht _ _|msg s' Ht _ _|e s0 s' _ Ht];
    cbn [snd]; rewrite Ht; [|done..].
  split.
  - intros j Hj. rewrite lookup_insert_ne; [done|congruence].
  - intros j. rewrite lookup_insert. case_decide; [|done].
    subst j. by rewrite Hacc.
Qed.


Lemma run_catch_healthy s (e : error) :
  healthy s →
  ∃ s', run (rollBack ≫= λ _, mret (Refused (Caught e))) s
        = (Returned (Refused (Caught e)), s') ∧ tx s' = None.
Proof.
  intros Hs. rewrite run_bind. unfold rollBack.
  destruct (run_query_healthy ROLLBACK s _ _ _ Hs eq_refl) as [-> _].
  by eexists.
Qed.

Lemma run_query_refused q s :
  healthy s → effect q s = None →
  run (query q) s
  = (Raised invalid_input,
     Store (table s) (tx s) (q :: log s) (tail (faults s)))
  ∧ healthy (Store (table s) (tx s) (q :: log s) (tail (faults s))).
Proof.
  intros Hs Hq. rewrite run_query, (exec_healthy _ _ Hs), Hq.
  split; [done|]. by apply healthy_tail.
Qed.

(** X4. On a session that fails no statement, [deductBalance] returns
    for every [userId] and [amount], also [NaN] and the infinities, and
    leaves no transaction open. *)
Theorem deductBalance_healthy_returns s userId amount :
  healthy s →
  ∃ r s', run (deductBalance userId amount) s = (Returned r, s')
          ∧ tx s' = None.
Proof.
  intros Hs. unfold deductBalance. rewrite run_try_catch, run_bind.
  unfold begin at 1.
  destruct (run_query_healthy BEGIN s _ _ _ Hs eq_refl) as [-> Hs1].
  unfold getUserForUpdate. rewrite !run_bind.
  match type of Hs1 with healthy ?st => set (s1 := st) in * end.
  destruct (effect (SELECT_FOR_UPDATE userId) s1) as [[[rows t] w]|] eqn:Hsel.
  2:{ destruct (run_query_refused _ _ Hs1 Hsel) as [-> Hs2].
      destruct (run_catch_healthy _ invalid_input Hs2) as (s' & -> & Htx).
      by eexists _, _. }
  destruct (run_query_healthy _ _ _ _ _ Hs1 Hsel) as [-> Hs2].
  match type of Hs2 with healthy ?st => set (s2 := st) in * end.
  assert (Hres : ∃ res,
    run (if bool_decide (1 < length rows)%nat then mret (Many rows)
         else mret (from_option One Undefined (head rows))) s2
    = (Returned res, s2)) by (case_bool_decide; by eexists).
  destruct Hres as [res ->]. cbn [fst snd]. destruct (absent res).
  - rewrite run_bind. unfold rollBack at 1.
    destruct (run_query_healthy ROLLBACK s2 _ _ _ Hs2 eq_refl) as [-> _].
    by eexists _, _.
  - destruct (Num.lt (balance_of res) amount).
    + rewrite run_bind. unfold rollBack at 1.
      destruct (run_query_healthy ROLLBACK s2 _ _ _ Hs2 eq_refl) as [-> _].
      by eexists _, _.
    + rewrite run_bind. unfold updateUserBalance.
      destruct (effect (UPDATE_BALANCE (Num.sub (balance_of res) amount) userId) s2)
        as [[[rows3 t3] w3]|] eqn:Hupd.
      2:{ destruct (run_query_refused _ _ Hs2 Hupd) as [-> Hs3].
          destruct (run_catch_healthy _ invalid_input Hs3) as (s' & -> & Htx).
          by eexists _, _. }
      destruct (run_query_healthy _ _ _ _ _ Hs2 Hupd) as [-> Hs3].
      rewrite run_bind. unfold commit.
      destruct (run_query_healthy COMMIT _ _ _ _ Hs3 eq_refl) as [-> _].
      by eexists _, _.
Qed.
End Ledger_endings.

(** ** The handler of [POST /users/buy] *)
Section Buy.
Import UserController.
Implicit Types (s : store) (b : body).

Lemma run_simpleBuyItem b s :
  run (simpleBuyItem b) s =
    if stopped b then (Returned invalid, s)
    else
      match run (deductBalance (default NaN (userId b))
                               (default NaN (amount b))) s with
      | (Returned (Debited i bal), s') => (Returned (Deducted i bal), s')
      | (Returned (Refused msg), s') => (Returned (BadRequest msg), s')
      | (Raised e, s') => (Returned (InternalServerError e), s')
      end.
Proof.
  unfold simpleBuyItem, stopped. rewrite run_try_catch.
  destruct (falsy (userId b) || falsy (amount b) || isNaN (userId b)
            || isNaN (amount b) || le0 (amount b)); [done|].
  rewrite run_bind.
  by destruct (run (deductBalance _ _) s) as [[[i bal|msg]|e] s'].
Qed.

Lemma passed_amount b :
  stopped b = false →
  amount b = Some PInf ∨ ∃ a, amount b = Some (Fin a) ∧ 0 < a.
Proof.
  unfold stopped. intros Hb.
  repeat (apply orb_false_elim in Hb as [Hb ?]).
  destruct (amount b) as [[a| | |]|]; try done; [|by left].
  right. exists a. split; [done|]. simpl in *. apply Z.leb_gt. done.
Qed.

Lemma simpleBuyItem_sound_ending b s :
  tx s = None → sound s b (run (simpleBuyItem b) s).
Proof.
  intros Hidle. rewrite run_simpleBuyItem. unfold sound.
  destruct (stopped b) eqn:Hb; [done|].
  destruct (deductBalance_ending s (default NaN (userId b))
              (default NaN (amount b)) Hidle)
    as [uid a acc s' Hu Ha Hacc Hle Ht _ _|msg s' Ht _ _|e s0 s' Hrb Ht];
    cbn [fst snd]; [|done|by eauto].
  destruct (passed_amount b Hb) as [Hinf|(a' & Ha' & Hpos)].
  { rewrite Hinf in Ha. discriminate Ha. }
  rewrite Ha' in Ha. simpl in Ha. injection Ha as ->.
  unfold stopped in Hb. repeat (apply orb_false_elim in Hb as [Hb ?]).
  destruct (userId b) as [u|]; [|done]. simpl in Hu. subst u.
  exists uid, a, acc. repeat split; try done; lia.
Qed.





End Buy.

(** ** The hook [authJwt] *)
Section Auth.
Context {jwt : JWT}.
Implicit Types (sep : ascii) (s a rest : string).

Lemma append_empty s : s +:+ EmptyString = s.
Proof.
  induction s as [|c s IH]; [done|].
  change (String c (s +:+ EmptyString) = String c s). by rewrite IH.
Qed.

Lemma split_nonempty sep s : ∃ piece pieces, split sep s = piece :: pieces.
Proof.
  induction s as [|c s (piece & pieces & IH)]; simpl; [by eexists _, _|].
  destruct (Ascii.eqb c sep); [by eexists _, _|]. rewrite IH. by eexists _, _.
Qed.

Lemma split_without sep a : occurs sep a = false → split sep a = [a].
Proof.
  induction a as [|c a IH]; simpl; [done|].
  intros [Hc Ha]%orb_false_elim. rewrite Hc, (IH Ha). done.
Qed.

Lemma split_at_first sep a rest :
  occurs sep a = false →
  split sep (a +:+ String sep rest) = a :: split sep rest.
Proof.
  induction a as [|c a IH]; simpl.
  - intros _. by rewrite Ascii.eqb_refl.
  - intros [Hc Ha]%orb_false_elim. rewrite Hc, (IH Ha). done.
Qed.

Lemma first_occurrence sep s :
  occurs sep s = true →
  ∃ a rest, s = a +:+ String sep rest ∧ occurs sep a = false.
Proof.
  induction s as [|c s IH]; simpl; [done|].
  destruct (Ascii.eqb c sep) eqn:Hc; simpl.
  - intros _. apply Ascii.eqb_eq in Hc as ->. by exists EmptyString, s.
  - intros (a & rest & -> & Ha)%IH. exists (String c a), rest.
    split; [done|]. simpl. by rewrite Hc.
Qed.

(** The token of a header is the piece between its first space and the
    next one (or the end). *)
Lemma token_of_header a rest :
  occurs " " a = false →
  token_of (Some (a +:+ String " " rest)) = head (split " " rest).
Proof.
  intros Ha. unfold token_of. simpl. rewrite (split_at_first _ _ _ Ha).
  by destruct (split_nonempty " " rest) as (piece & pieces & ->).
Qed.

Lemma token_of_without a :
  occurs " " a = false → token_of (Some a) = None.
Proof. intros Ha. unfold token_of. simpl. by rewrite (split_without _ _ Ha). Qed.

Lemma head_split_empty sep rest :
  head (split sep rest) = Some EmptyString
  ↔ rest = EmptyString ∨ ∃ rest', rest = String sep rest'.
Proof.
  destruct rest as [|c rest]; simpl; [split; [by left|done]|].
  destruct (Ascii.eqb c sep) eqn:Hc.
  - apply Ascii.eqb_eq in Hc as ->. split; [|done].
    intros _. right. by exists rest.
  - destruct (split_nonempty sep rest) as (piece & pieces & ->). simpl.
    split; [done|]. intros [|[rest' [= -> ->]]]; [done|].
    by rewrite Ascii.eqb_refl in Hc.
Qed.

Lemma authJwt_NoToken env h :
  authJwt env h = Some NoToken
  ↔ token_of h = None ∨ token_of h = Some EmptyString.
Proof.
  unfold authJwt. destruct (token_of h) as [[|c t]|].
  - split; [by right|done].
  - destruct (verify _ _); (split; [done|by intros [|]]).
  - split; [by left|done].
Qed.

(** X9. [authJwt] answers 403 exactly when the [Authorization] header is
    absent, or has no space, or has nothing between its first space and
    the next space or its end; [verify] plays no part in it. *)
Theorem authJwt_denies_without_token env (h : option string) :
  authJwt env h = Some NoToken
  ↔ h = None
    ∨ ∃ s, h = Some s
        ∧ (occurs " " s = false
           ∨ ∃ a rest, s = a +:+ String " " rest ∧ occurs " " a = false
               ∧ (rest = EmptyString ∨ ∃ rest', rest = String " " rest')).
Proof.
  rewrite authJwt_NoToken. destruct h as [s|]; [|split; by left].
  destruct (occurs " " s) eqn:Hs.
  - destruct (first_occurrence _ _ Hs) as (a & rest & -> & Ha).
    rewrite (token_of_header _ _ Ha), head_split_empty.
    destruct (split_nonempty " " rest) as (piece & pieces & Hsplit).
    split.
    + intros [Hn|Hrest]; [by rewrite Hsplit in Hn|].
      right. eexists. split; [done|]. right. by exists a, rest.
    + intros [|(s & [= <-] & [Hno|(a' & rest' & Heq & Ha' & Hrest)])]; [done| |].
      * by rewrite Hs in Hno.
      * right. 
        assert (Hsame : a' :: split " " rest' = a :: split " " rest).
        { rewrite <- !split_at_first by done. by rewrite Heq. }
        injection Hsame as -> Hsp. apply head_split_empty.
        rewrite <- Hsp. by apply head_split_empty.
  - rewrite (token_of_without _ Hs). split; [|by left].
    intros _. right. exists s. split; [done|]. by left.
Qed.

(** X10. For a header [scheme token] or [scheme token rest...], where
    the scheme and the token have no space and the token is not empty, the
    token is what [verify] is given, with [JWT_SECRET] or, when that is
    unset or empty, ['secret']: the request goes on when it verifies and is
    answered 401 when it does not. The scheme is not looked at, and what
    follows a second space is dropped. *)
Theorem authJwt_verifies_second_piece env (scheme token rest : string) :
  occurs " " scheme = false → occurs " " token = false →
  token ≠ EmptyString →
  rest = EmptyString ∨ (∃ rest', rest = String " " rest') →
  authJwt env (Some (scheme +:+ String " " (token +:+ rest)))
  = match verify token (jwtSecret env) with
    | Some decoded => None
    | None => Some InvalidToken
    end.
Proof.
  intros Hscheme Htoken Hne Hrest. unfold authJwt.
  rewrite (token_of_header _ _ Hscheme).
  assert (Hhead : head (split " " (token +:+ rest)) = Some token).
  { destruct Hrest as [->|[rest' ->]].
    - by rewrite append_empty, (split_without _ _ Htoken).
    - by rewrite (split_at_first _ _ _ Htoken). }
  rewrite Hhead. destruct token as [|c t]; [done|]. done.
Qed.
End Auth.

(** ** The route [POST /users/buy] *)
Section Route.
Import UserController UserRoute.
Implicit Types (s : store) (b : body) (env h : option string).

Lemma authJwt_passes {jwt : JWT} env h :
  authJwt env h = None →
  ∃ token decoded,
    token_of h = Some token ∧ token ≠ EmptyString
    ∧ verify token (jwtSecret env) = Some decoded.
Proof.
  unfold authJwt. destruct (token_of h) as [[|c t]|]; [done| |done].
  destruct (verify _ _) as [decoded|] eqn:Hv; [|done].
  intros _. by exists (String c t), decoded.
Qed.

(** X11. On an idle session, whatever statements fail: if a request to
    [POST /users/buy] changes the committed table, then its header carried
    a token that verified, its body named an existing account and a
    positive amount within that account's balance, the answer is 200 with
    the new balance, and the change is exactly that debit. *)
Theorem buy_changes_table_only_by_verified_debit {jwt : JWT} env h b s :
  tx s = None →
  let out := run (buy env h b) s in
  table out.2 ≠ table s →
  ∃ token decoded uid a acc,
    token_of h = Some token
    ∧ verify token (jwtSecret env) = Some decoded
    ∧ userId b = Some (Fin uid) ∧ amount b = Some (Fin a)
    ∧ table s !! uid = Some acc ∧ 0 < a ≤ balance acc
    ∧ out.1 = Returned (Handled (Deducted (Fin uid) (Fin (balance acc - a))))
    ∧ table out.2 = <[uid := set_balance (balance acc - a) acc]> (table s).
Proof.
  intros Hidle out. subst out. unfold buy.
  destruct (authJwt env h) as [d|] eqn:Hauth; [done|].
  destruct (authJwt_passes _ _ Hauth) as (token & decoded & Htok & _ & Hv).
  rewrite run_bind. pose proof (simpleBuyItem_sound_ending b s Hidle) as Hsound.
  unfold sound in Hsound.
  destruct (run (simpleBuyItem b) s) as [[[msg|i bal|e]|e] s']; cbn [fst snd] in *.
  - done.
  - destruct Hsound as (uid & a & acc & Hu & Ha & Hacc & Hle & -> & -> & Ht).
    intros _. by exists token, decoded, uid, a, acc.
  - by destruct Hsound.
  - done.
Qed.

(** X12. The route makes no use of what the token decodes to: with two
    verifiers that accept the same tokens, whatever they decode them to,
    the request is handled in the same way. In particular the user of the
    token is not compared with the [userId] of the body. *)
Theorem buy_ignores_token_payload (jwt1 jwt2 : JWT) env h b :
  (∀ token secret,
     is_Some (@verify jwt1 token secret) ↔ is_Some (@verify jwt2 token secret)) →
  @buy jwt1 env h b = @buy jwt2 env h b.
Proof.
  intros Hsame. unfold buy, authJwt.
  destruct (token_of h) as [[|c t]|]; [done| |done].
  specialize (Hsame (String c t) (jwtSecret env)).
  destruct (@verify jwt1 _ _), (@verify jwt2 _ _); try done.
  - destruct Hsame as [Hs _]. by destruct (Hs ltac:(done)).
  - destruct Hsame as [_ Hs]. by destruct (Hs ltac:(done)).
Qed.
End Route.

(** ** More on the cache pipeline *)
Section Pipeline_more.
Context {json_ : JSON}.
Implicit Types (r : redis) (now ended later : Z) (settled : fetched)
  (evs : list event) (f : flight).

Lemma deliver_app ended evs1 evs2 f :
  deliver ended (evs1 ++ evs2) f = deliver ended evs2 (deliver ended evs1 f).
Proof. unfold deliver. apply foldl_app. Qed.

(** The events of a worker that ends with exit code 0, on a cache that is
    up. *)
Lemma deliver_clean_exit ended evs r :
  reachable r = true → Forall (λ ev, ev ≠ Exit 0) evs →
  let f := deliver ended (evs ++ [Exit 0]) (Flight opening EmptyString r) in
  entries (cache f) !! cacheKey = Some (streamed (sent f), ended + 300)
  ∧ ∀ key, key ≠ cacheKey → entries (cache f) !! key = entries r !! key.
Proof.
  intros Hup Hevs f. subst f. rewrite deliver_app.
  set (f := deliver ended evs (Flight opening EmptyString r)).
  assert (Hc : cache f = r) by (unfold f; by rewrite deliver_cache).
  assert (Hd : responseData f = streamed (sent f))
    by (unfold f; by apply deliver_responseData).
  simpl. unfold on_exit, set_ex. rewrite Hc, Hup.
  case_bool_decide; [done|]. cbn [cache sent entries].
  rewrite lookup_insert_eq, Hd. split; [done|].
  intros key Hkey. by rewrite lookup_insert_ne.
Qed.

(** X13. Whatever messages and errors a worker sends before it ends with
    exit code 0, the value then stored under the key, for 300 seconds, is
    exactly the text that was written to the client, chunk after chunk;
    no other key is touched. *)
Theorem clean_exit_caches_what_was_streamed ended evs r :
  reachable r = true → Forall (λ ev, ev ≠ Exit 0) evs →
  let f := deliver ended (evs ++ [Exit 0]) (Flight opening EmptyString r) in
  entries (cache f) !! cacheKey = Some (streamed (sent f), ended + 300)
  ∧ ∀ key, key ≠ cacheKey → entries (cache f) !! key = entries r !! key.
Proof. apply deliver_clean_exit. Qed.

(** X14. Messages, errors and an exit with a code other than 0 never
    write the cache: a worker that does not end with exit code 0 leaves
    the cache as it was, whatever it sent. *)
Theorem no_clean_exit_leaves_cache ended evs f :
  Forall (λ ev, ev ≠ Exit 0) evs → cache (deliver ended evs f) = cache f.
Proof. apply deliver_cache. Qed.

(** X15. A request never touches a key of the cache other than
    ['skins_data'], whether it is answered from the cache, refused, or
    served by a worker whose fetch succeeds or fails. *)
Theorem getSkinsByWorker_writes_one_key now r settled ended key :
  key ≠ cacheKey →
  entries (cache_after (getSkinsByWorker now r settled ended)) !! key
  = entries r !! key.
Proof.
  intros Hkey. unfold getSkinsByWorker.
  destruct (probe now r) as [answer|] eqn:Hprobe; [done|].
  pose proof (probe_miss_reachable _ _ Hprobe) as Hup.
  cbn [cache_after]. unfold thread.
  destruct (deliver_clean_exit ended
              (Message <$> fetchItems settled) r Hup) as [_ Hother].
  - apply Forall_fmap, Forall_forall. by intros m _.
  - by apply Hother.
Qed.

(** X16. An entry is not served once its 300 seconds are over: a request
    that arrives at or after the expiry of the entry a successful fetch
    wrote finds no value, makes a worker and sends the two requests
    upstream again. *)
Theorem expired_entry_is_fetched_again now r nt tr ended later settled' ended' :
  probe now r = None → ended + 300 ≤ later →
  let first := getSkinsByWorker now r (Responses nt tr) ended in
  let second := getSkinsByWorker later (cache_after first) settled' ended' in
  get later cacheKey (cache_after first) = inr None
  ∧ workers second = 1%nat
  ∧ upstream second = requests.
Proof.
  intros Hmiss Hlater first second.
  assert (Hget : get later cacheKey (cache_after first) = inr None).
  { subst first. rewrite (getSkinsByWorker_responses _ _ _ _ _ Hmiss).
    unfold get. cbn [cache_after reachable entries].
    rewrite lookup_insert_eq. by rewrite bool_decide_eq_false_2 by lia. }
  split; [done|]. subst second. generalize dependent (cache_after first). intros r' Hget.
  unfold getSkinsByWorker, probe. by rewrite Hget.
Qed.
End Pipeline_more.

Section Merge_more.
Implicit Types (nt tr : list item).

(** X17. The merged list depends on the tradable listing only through its
    first [length nonTradableItems] items: tradable items at later
    positions appear nowhere in it. *)
Theorem merge_ignores_surplus_tradable nt tr :
  merge nt tr = merge nt (take (length nt) tr).
Proof.
  apply list_eq. intros i. rewrite !lookup_merge.
  destruct (nt !! i) as [item|] eqn:Hi; [|done]. simpl.
  apply lookup_lt_Some in Hi. by rewrite lookup_take_lt.
Qed.

End Merge_more.

(** ** [chunkArray] *)
Section Chunks.
Import SkinsRepository.
Context {A : Type}.
Implicit Types (array : list A) (chunks : list (list A)) (size i : Z)
  (fuel n : nat).

Lemma slice_within array size n :
  0 < size → (n < length array)%nat →
  slice (Z.of_nat n) (Z.of_nat n + size) array
  = take (Z.to_nat size) (drop n array).
Proof.
  intros Hsize Hn. unfold slice.
  rewrite (proj2 (Z.ltb_ge _ _)) by lia.
  rewrite (proj2 (Z.ltb_ge _ _)) by lia.
  rewrite (Z.min_l (Z.of_nat n)) by lia. rewrite Nat2Z.id.
  destruct (Z.le_gt_cases (Z.of_nat n + size) (Z.of_nat (length array))).
  - rewrite Z.min_l by lia. f_equal. lia.
  - rewrite Z.min_r by lia.
    rewrite !take_ge; [done| |]; rewrite length_drop; lia.
Qed.

Lemma take_plus (l : list A) (n m : nat) :
  take (n + m) l = (take n l ++ take m (drop n l))%list.
Proof.
  revert l. induction n as [|n IH]; intros [|x l]; simpl; try done.
  - by rewrite take_nil.
  - by rewrite IH.
Qed.

Lemma chunk_loop_inv fuel array size n chunks :
  0 < size → (length array - n ≤ fuel)%nat →
  concat chunks = take n array →
  ((n ≤ length array)%nat → Forall (λ c, Z.of_nat (length c) = size) chunks) →
  full_but_last size chunks →
  Forall (λ c, 0 < Z.of_nat (length c) ≤ size) chunks →
  Z.of_nat n = size * Z.of_nat (length chunks) →
  (chunks ≠ [] → size * (Z.of_nat (length chunks) - 1) < Z.of_nat (length array)) →
  ∃ res,
    chunk_loop fuel array size (Z.of_nat n) chunks = Some res
    ∧ concat res = array
    ∧ Forall (λ c, 0 < Z.of_nat (length c) ≤ size) res
    ∧ full_but_last size res
    ∧ Z.of_nat (length array) ≤ size * Z.of_nat (length res)
    ∧ (res ≠ [] → size * (Z.of_nat (length res) - 1) < Z.of_nat (length array)).
Proof.
  intros Hsize. revert n chunks.
  induction fuel as [|fuel IH];
    intros n chunks Hfuel Hcat Hfull Hbut Hlen Hn Hlast.
  - exists chunks. simpl. rewrite bool_decide_eq_false_2 by lia.
    split; [done|]. split; [rewrite Hcat, take_ge; [done|lia]|].
    split; [done|]. split; [done|]. split; [lia|done].
  - simpl. case_bool_decide as Hlt.
    2:{ exists chunks. split; [done|].
        split; [rewrite Hcat, take_ge; [done|lia]|].
        split; [done|]. split; [done|]. split; [lia|done]. }
    assert (Hn' : (n < length array)%nat) by lia.
    rewrite (slice_within _ _ _ Hsize Hn').
    set (c := take (Z.to_nat size) (drop n array)).
    assert (Hc : length c = Nat.min (Z.to_nat size) (length array - n))
      by (unfold c; by rewrite length_take, length_drop).
    replace (Z.of_nat n + size) with (Z.of_nat (n + Z.to_nat size)) by lia.
    apply IH.
    + lia.
    + rewrite concat_app, Hcat. simpl. rewrite app_nil_r. by rewrite take_plus.
    + intros Hle. apply Forall_app. split; [apply Hfull; lia|].
      apply Forall_singleton. lia.
    + intros k c' Hk Hlt'. rewrite length_app in Hlt'. simpl in Hlt'.
      rewrite lookup_app_l in Hk by lia.
      eapply (Forall_lookup_1 _ _ _ _ (Hfull ltac:(lia)) Hk).
    + apply Forall_app. split; [done|]. apply Forall_singleton. lia.
    + rewrite length_app. simpl. lia.
    + intros _. rewrite length_app. simpl. lia.
Qed.

(** [chunkArray] with a positive size. *)
Lemma chunkArray_spec array size :
  0 < size →
  ∃ chunks,
    chunkArray array size = Some chunks
    ∧ concat chunks = array
    ∧ Forall (λ c, 0 < Z.of_nat (length c) ≤ size) chunks
    ∧ full_but_last size chunks
    ∧ Z.of_nat (length array) ≤ size * Z.of_nat (length chunks)
        < Z.of_nat (length array) + size.
Proof.
  intros Hsize.
  destruct (chunk_loop_inv (length array) array size 0 [] Hsize)
    as (res & Hres & Hcat & Hlen & Hfull & Hmin & Hmax);
    [lia|done|done|by intros k c Hk|done|simpl; lia|done|].
  exists res. repeat split; try done.
  destruct res as [|c res]; [simpl in *; lia|].
  specialize (Hmax ltac:(done)). lia.
Qed.

(** X18. With a positive size, [chunkArray] returns chunks whose
    concatenation is the array: none is empty, none is longer than the
    size, all but the last have exactly the size, and their number is the
    length of the array divided by the size, rounded up. *)
Theorem chunkArray_partitions array size :
  0 < size →
  ∃ chunks,
    chunkArray array size = Some chunks
    ∧ concat chunks = array
    ∧ Forall (λ c, 0 < Z.of_nat (length c) ≤ size) chunks
    ∧ full_but_last size chunks
    ∧ Z.of_nat (length array) ≤ size * Z.of_nat (length chunks)
        < Z.of_nat (length array) + size.
Proof. apply chunkArray_spec. Qed.

Lemma chunk_loop_more fuel array size i chunks res :
  chunk_loop fuel array size i chunks = Some res →
  chunk_loop (S fuel) array size i chunks = Some res.
Proof.
  revert i chunks. induction fuel as [|fuel IH]; intros i chunks.
  - simpl. by case_bool_decide.
  - intros Hrun. simpl in Hrun. change (chunk_loop (S (S fuel)) array size i chunks)
      with (if bool_decide (i < Z.of_nat (length array))
            then chunk_loop (S fuel) array size (i + size)
                   (chunks ++ [slice i (i + size) array])
            else Some chunks).
    case_bool_decide; [|done]. by apply IH.
Qed.

(** The loop with a size that is not positive, on an array that is not
    empty: the index never passes the length. *)
Lemma chunk_loop_stuck fuel array size :
  size ≤ 0 → array ≠ [] → chunk_loop fuel array size 0 [] = None.
Proof.
  intros Hsize Hne.
  assert (Hgen : ∀ i chunks, i ≤ 0 → chunk_loop fuel array size i chunks = None).
  { induction fuel as [|fuel IH]; intros i chunks Hi; simpl;
      (rewrite bool_decide_eq_true_2 by (destruct array; [done|simpl; lia]));
      [done|].
    apply IH. lia. }
  by apply Hgen.
Qed.

(** X19. The loop of [chunkArray] ends exactly when the size is positive
    or the array is empty. With a positive size, one turn per element is
    enough and more turns change nothing; with a size of 0 or less and an
    array that is not empty, no number of turns ends it; on the empty
    array it ends at once with no chunk, whatever the size. *)
Theorem chunkArray_ends_only_for_positive_size array size :
  (0 < size →
     ∀ fuel, (length array ≤ fuel)%nat →
       chunk_loop fuel array size 0 [] = chunkArray array size)
  ∧ (size ≤ 0 → array ≠ [] → ∀ fuel, chunk_loop fuel array size 0 [] = None)
  ∧ (array = [] → ∀ fuel, chunk_loop fuel array size 0 [] = Some []).
Proof.
  split; [|split].
  - intros Hsize fuel Hfuel.
    destruct (chunkArray_spec array size Hsize) as (res & Hres & _).
    rewrite Hres. unfold chunkArray in Hres.
    induction Hfuel as [|fuel Hfuel IH]; [done|]. by apply chunk_loop_more.
  - intros Hsize Hne fuel. by apply chunk_loop_stuck.
  - intros -> fuel. by destruct fuel.
Qed.
End Chunks.

(** ** [bulkInsertSkins] and [getSkins] *)
Section Items.
Import SkinsRepository.
Implicit Types (db : items_db) (chunk skins : list skin)
  (chunks : list (list skin)).

Lemma query_sound q values db :
  sound_items db →
  query q values db =
    match effect q values db with
    | Some (rows, table', serial') =>
        (inr rows,
         ItemsDb table' serial' ((q, values) :: received db) (tail (refusals db)))
    | None =>
        (inl refused,
         ItemsDb (items db) (serial db) ((q, values) :: received db)
           (tail (refusals db)))
    end.
Proof.
  unfold sound_items, query. destruct (refusals db) as [|[e|] fs]; [done| |done].
  inversion 1; subst. discriminate.
Qed.

Lemma values_of_app chunk1 chunk2 :
  values_of (chunk1 ++ chunk2) = (values_of chunk1 ++ values_of chunk2)%list.
Proof. unfold values_of. apply bind_app. Qed.

Lemma length_values_of chunk :
  length (values_of chunk) = (length chunk * 3)%nat.
Proof.
  induction chunk as [|s chunk IH]; [done|].
  change (values_of (s :: chunk)) with
    ([PString (name s); price_param (min_price_non_tradable s);
      price_param (min_price_tradable s)] ++ values_of chunk)%list.
  rewrite length_app, IH. simpl. lia.
Qed.

Lemma as_price_param (p : option Q) : as_price (price_param p) = Some p.
Proof. by destruct p. Qed.

(** The placeholders of a chunk pick its rows out of its values, also
    when the chunk follows other rows in the values. *)
Lemma rows_of_values before chunk :
  Forall fits chunk →
  mapM (row_of (values_of before ++ values_of chunk))
       (imap (λ index _,
                ((length before + index) * 3 + 1,
                 (length before + index) * 3 + 2,
                 (length before + index) * 3 + 3)%nat) chunk)
  = Some chunk.
Proof.
  revert before. induction chunk as [|s chunk IH]; intros before Hfit; [done|].
  inversion Hfit as [|? ? Hs Hchunk]; subst.
  rewrite imap_cons. cbn [mapM]. 
  assert (Hrow : row_of (values_of before ++ values_of (s :: chunk))
                   ((length before + 0) * 3 + 1, (length before + 0) * 3 + 2,
                    (length before + 0) * 3 + 3)%nat = Some s).
  { unfold row_of, bound. cbn [fst snd].
    replace ((length before + 0) * 3 + 1)%nat with (S (length (values_of before) + 0))
      by (rewrite length_values_of; lia).
    replace ((length before + 0) * 3 + 2)%nat with (S (length (values_of before) + 1))
      by (rewrite length_values_of; lia).
    replace ((length before + 0) * 3 + 3)%nat with (S (length (values_of before) + 2))
      by (rewrite length_values_of; lia).
    rewrite !lookup_app_r by lia.
    replace (length (values_of before) + 0 - length (values_of before))%nat with 0%nat by lia.
    replace (length (values_of before) + 1 - length (values_of before))%nat with 1%nat by lia.
    replace (length (values_of before) + 2 - length (values_of before))%nat with 2%nat by lia.
    simpl. unfold fits in Hs. rewrite bool_decide_eq_true_2 by done. simpl.
    rewrite !as_price_param. simpl. by destruct s. }
  rewrite Hrow. cbn [mbind option_bind].
  specialize (IH (before ++ [s])%list Hchunk).
  rewrite values_of_app, <- app_assoc in IH.
  change (values_of [s] ++ values_of chunk)%list with (values_of (s :: chunk)) in IH.
  rewrite (imap_ext _ (λ index _,
             ((length (before ++ [s]) + index) * 3 + 1,
              (length (before ++ [s]) + index) * 3 + 2,
              (length (before ++ [s]) + index) * 3 + 3)%nat) chunk).
  - by rewrite IH.
  - intros i x _. unfold compose. rewrite length_app. simpl.
    f_equal; [f_equal|]; lia.
Qed.

Lemma rows_of_chunk chunk :
  Forall fits chunk →
  mapM (row_of (values_of chunk)) (tuples_of chunk) = Some chunk.
Proof. intros Hfit. exact (rows_of_values [] chunk Hfit). Qed.

Lemma numbered_app (from : Z) (rows1 rows2 : list skin) :
  numbered from (rows1 ++ rows2)
  = (numbered from rows1
     ++ numbered (from + Z.of_nat (length rows1)) rows2)%list.
Proof.
  unfold numbered. rewrite imap_app. f_equal.
  apply imap_ext. intros i row _. simpl. f_equal. lia.
Qed.

Lemma query_next q values db fs :
  refusals db = None :: fs →
  query q values db =
    match effect q values db with
    | Some (rows, table', serial') =>
        (inr rows, ItemsDb table' serial' ((q, values) :: received db) fs)
    | None =>
        (inl refused,
         ItemsDb (items db) (serial db) ((q, values) :: received db) fs)
    end.
Proof. unfold query. by intros ->. Qed.

Lemma query_failed q values db e fs :
  refusals db = Some e :: fs →
  query q values db
  = (inl e, ItemsDb (items db) (serial db) ((q, values) :: received db) fs).
Proof. unfold query. by intros ->. Qed.

Lemma effect_insert chunk db :
  Forall fits chunk →
  effect (INSERT_ITEMS (tuples_of chunk)) (values_of chunk) db
  = Some (chunk, (items db ++ numbered (serial db) chunk)%list,
          serial db + Z.of_nat (length chunk)).
Proof. intros Hfit. simpl. by rewrite (rows_of_chunk _ Hfit). Qed.

(** The loop over the batches, on a server that fails the batch after
    the first [k], or none. *)
Lemma insert_chunks_run chunks db :
  Forall (Forall fits) chunks →
  (sound_items db →
   ∃ db', insert_chunks chunks db = (Returned (), db')
     ∧ items db' = (items db ++ numbered (serial db) (concat chunks))%list
     ∧ serial db' = serial db + Z.of_nat (length (concat chunks))
     ∧ received db' = (reverse (batch <$> chunks) ++ received db)%list)
  ∧ (∀ k e rest,
       refusals db = (replicate k None ++ Some e :: rest)%list →
       (k < length chunks)%nat →
       ∃ db', insert_chunks chunks db = (Raised e, db')
         ∧ items db'
           = (items db ++ numbered (serial db) (concat (take k chunks)))%list
         ∧ received db'
           = (reverse (batch <$> take (S k) chunks) ++ received db)%list).
Proof.
  intros Hfit. revert db.
  induction Hfit as [|chunk chunks Hchunk Hfit IH]; intros db.
  { split.
    - intros _. exists db. simpl. rewrite app_nil_r.
      repeat split; try done; lia.
    - intros k e rest _ Hk. simpl in Hk. lia. }
  split.
  - intros Hdb. simpl. rewrite (query_sound _ _ _ Hdb), (effect_insert _ _ Hchunk).
    set (db1 := ItemsDb _ _ _ _).
    assert (Hdb1 : sound_items db1) by (by apply Forall_tail).
    destruct (proj1 (IH db1) Hdb1) as (db' & -> & Hi & Hs & Hr).
    exists db'. split; [done|]. rewrite Hi, Hs, Hr. cbn [db1 items serial received].
    simpl concat. rewrite numbered_app, length_app, reverse_cons, <- !app_assoc.
    repeat split; try done; lia.
  - intros [|k] e rest Hrest Hk; simpl.
    + rewrite (query_failed _ _ _ _ _ Hrest). eexists. split; [done|].
      cbn [items received]. by rewrite app_nil_r.
    + rewrite (query_next _ _ _ _ Hrest), (effect_insert _ _ Hchunk).
      set (db1 := ItemsDb _ _ _ _).
      destruct (proj2 (IH db1) k e rest eq_refl ltac:(simpl in Hk; lia))
        as (db' & -> & Hi & Hr).
      exists db'. split; [done|]. rewrite Hi, Hr. cbn [db1 items serial received].
      simpl concat. simpl take.
      by rewrite numbered_app, (reverse_cons _ (batch chunk)), <- !app_assoc.
Qed.
Lemma concat_take_full {A} (size : Z) (chunks : list (list A)) (k : nat) :
  full_but_last size chunks → (k < length chunks)%nat →
  concat (take k chunks) = take (k * Z.to_nat size) (concat chunks).
Proof.
  revert k. induction chunks as [|c chunks IH]; intros k Hfull Hk;
    [simpl in Hk; lia|].
  destruct k as [|k]; [done|]. simpl in Hk.
  assert (Hc : length c = Z.to_nat size).
  { specialize (Hfull 0%nat c eq_refl). simpl in Hfull. lia. }
  simpl. rewrite take_app_add'; [|lia].
  - f_equal. apply IH; [|lia].
    intros j c' Hj Hlt. apply (Hfull (S j) c' Hj). simpl. lia.
Qed.

Lemma Forall_concat_parts {A} (P : A → Prop) (ls : list (list A)) :
  Forall P (concat ls) → Forall (Forall P) ls.
Proof.
  induction ls as [|l ls IH]; simpl; [done|].
  intros [Hl Hls]%Forall_app. constructor; [done|by apply IH].
Qed.

(** X20. On a server that fails nothing, with a positive batch size (500
    when none is given) and names that fit the column,
    [bulkInsertSkins] returns after one [INSERT] per chunk of
    [chunkArray], none with more rows than the batch size, and the table
    then holds, after its old rows, exactly the given rows in their order,
    numbered from the sequence: the placeholders [$1, $2, ...] pair every
    value with its column and row. *)
Theorem bulkInsertSkins_inserts_all skins (batchSize : option Z) db :
  sound_items db → Forall fits skins →
  0 < default 500 batchSize →
  ∃ chunks db',
    chunkArray skins (default 500 batchSize) = Some chunks
    ∧ Forall (λ c, 0 < Z.of_nat (length c) ≤ default 500 batchSize) chunks
    ∧ bulkInsertSkins skins batchSize db = Some (Returned (), db')
    ∧ items db' = (items db ++ numbered (serial db) skins)%list
    ∧ received db' = (reverse (batch <$> chunks) ++ received db)%list.
Proof.
  intros Hdb Hfit Hsize.
  destruct (chunkArray_spec skins _ Hsize)
    as (chunks & Hchunks & Hcat & Hlen & _ & _).
  assert (Hfits : Forall (Forall fits) chunks).
  { apply Forall_concat_parts. by rewrite Hcat. }
  destruct (proj1 (insert_chunks_run chunks db Hfits) Hdb)
    as (db' & Hrun & Hi & _ & Hr).
  unfold bulkInsertSkins. case_bool_decide as Hempty.
  - destruct skins; [|done]. 
    assert (chunks = []) as -> by (by injection Hchunks).
    exists [], db. simpl. rewrite app_nil_r. done.
  - exists chunks, db'. rewrite Hchunks. simpl. rewrite Hrun.
    by rewrite Hi, Hcat.
Qed.

(** X21. [bulkInsertSkins] is not atomic: when the server fails the batch
    that follows the first [k], the call throws that failure, the rows of
    the first [k] batches stay in the table, and no later batch is sent. *)
Theorem bulkInsertSkins_keeps_earlier_batches
    skins (size : Z) db (k : nat) (e : error) (rest : list (option error)) :
  Forall fits skins → 0 < size →
  refusals db = (replicate k None ++ Some e :: rest)%list →
  Z.of_nat k * size < Z.of_nat (length skins) →
  ∃ db',
    bulkInsertSkins skins (Some size) db = Some (Raised e, db')
    ∧ items db'
      = (items db ++ numbered (serial db) (take (k * Z.to_nat size) skins))%list
    ∧ length (received db') = (length (received db) + S k)%nat.
Proof.
  intros Hfit Hsize Hrest Hk.
  destruct (chunkArray_spec skins size Hsize)
    as (chunks & Hchunks & Hcat & Hlen & Hfull & Hcount).
  assert (Hfits : Forall (Forall fits) chunks)
    by (apply Forall_concat_parts; by rewrite Hcat).
  assert (Hk' : (k < length chunks)%nat) by nia.
  destruct (proj2 (insert_chunks_run chunks db Hfits) k e rest Hrest Hk')
    as (db' & Hrun & Hi & Hr).
  exists db'. unfold bulkInsertSkins.
  rewrite bool_decide_eq_false_2 by (destruct skins; simpl in *; [lia|done]).
  change (default 500 (Some size)) with size.
  rewrite Hchunks. simpl. rewrite Hrun. split; [done|].
  rewrite Hi, Hr, (concat_take_full size chunks k Hfull Hk'), Hcat.
  split; [done|].
  rewrite length_app, length_reverse, length_fmap, length_take. lia.
Qed.

(** X22. On no rows [bulkInsertSkins] returns at once and sends nothing,
    whatever the batch size; on some rows with a batch size of 0 or less
    it never returns, the loop of [chunkArray] having no end. *)
Theorem bulkInsertSkins_returns_only_for_positive_size skins (size : Z) db :
  (skins = [] → bulkInsertSkins skins (Some size) db = Some (Returned (), db))
  ∧ (skins ≠ [] → size ≤ 0 →
       bulkInsertSkins skins (Some size) db = None
       ∧ ∀ fuel, chunk_loop fuel skins size 0 [] = None).
Proof.
  split; [by intros ->|]. intros Hne Hsize.
  assert (Hloop : ∀ fuel, chunk_loop fuel skins size 0 [] = None)
    by (intros fuel; by apply chunk_loop_stuck).
  split; [|done]. unfold bulkInsertSkins, chunkArray.
  rewrite bool_decide_eq_false_2 by (by destruct skins).
  change (default 500 (Some size)) with size. by rewrite Hloop.
Qed.

(** X23. On a server that fails nothing, [getSkins(limit, offset)] with
    counts that are not negative returns the rows of the table, in the
    order the server scans them, from position [offset] on (from the
    start when it is absent or 0), and at most [limit] of them; a limit
    that is absent or 0 is no limit. The table is left as it was. *)
Theorem getSkins_window (limit offset : option Z) db :
  sound_items db →
  (∀ l, limit = Some l → 0 ≤ l) → (∀ o, offset = Some o → 0 ≤ o) →
  let rows := drop (Z.to_nat (default 0 offset)) (snd <$> items db) in
  (getSkins limit offset db).1
  = inr (if given limit then take (Z.to_nat (default 0 limit)) rows else rows)
  ∧ items (getSkins limit offset db).2 = items db.
Proof.
  intros Hdb Hl Ho rows. subst rows. unfold getSkins, getSkins_query.
  assert (Hcount : ∀ z, 0 ≤ z → as_count (number z) = Some (Z.to_nat z)).
  { intros z Hz. unfold as_count, number. simpl.
    by rewrite bool_decide_eq_true_2 by done. }
  destruct limit as [l|], offset as [o|]; cbn [given default];
    try specialize (Hl _ eq_refl); try specialize (Ho _ eq_refl);
    repeat match goal with
    | |- context [negb (?z =? 0)] => destruct (Z.eqb_spec z 0) as [->|?]
    end;
    cbn [negb app length]; rewrite (query_sound _ _ _ Hdb);
    cbn [effect clause bound lookup list_lookup mbind option_bind];
    rewrite ?Hcount by done; cbn [mbind option_bind default from_option fst snd items];
    done.
Qed.
End Items.

(** ** The properties on the data of the examples *)
Section Further_examples.
Import UserController UserRoute SkinsRepository Samples.

(** The [COMMIT] of a debit of 400 fails: nothing is debited. *)
Lemma deductBalance_all_or_nothing_witness :
  let out := run (deductBalance (Fin 1) (Fin 400)) failing_commit in
  tx failing_commit = None
  ∧ out.1 = Returned (Refused (Caught lost))
  ∧ ((∃ uid a acc,
        Fin 1 = Fin uid ∧ Fin 400 = Fin a
        ∧ table failing_commit !! uid = Some acc ∧ a ≤ balance acc
        ∧ out.1 = Returned (Debited (Fin 1) (Fin (balance acc - a)))
        ∧ table out.2
          = <[uid := set_balance (balance acc - a) acc]> (table failing_commit))
     ∨ ((∀ r, out.1 = Returned r → success r = false)
        ∧ table out.2 = table failing_commit)).
Proof.
  intros out. split; [reflexivity|]. split; [reflexivity|].
  exact (deductBalance_all_or_nothing failing_commit (Fin 1) (Fin 400) eq_refl).
Defined.

Lemma seeded_balances_nonnegative (j : Z) (acc : account) :
  table Demo.seeded !! j = Some acc → 0 ≤ balance acc.
Proof.
  intros Hj. apply elem_of_list_to_map_2 in Hj.
  repeat (apply elem_of_cons in Hj as [[= -> ->]|Hj]; [simpl; lia|]).
  by apply elem_of_nil in Hj.
Defined.

Lemma deductBalance_keeps_balances_nonnegative_witness :
  (tx Demo.seeded = None
   ∧ ∀ j acc, table Demo.seeded !! j = Some acc → 0 ≤ balance acc)
  ∧ ∀ j acc,
      table (run (deductBalance (Fin 1) (Fin 400)) Demo.seeded).2 !! j
      = Some acc →
      0 ≤ balance acc.
Proof.
  split; [split; [reflexivity|exact seeded_balances_nonnegative]|].
  exact (deductBalance_keeps_balances_nonnegative Demo.seeded (Fin 1) (Fin 400)
           eq_refl seeded_balances_nonnegative).
Defined.

Lemma deductBalance_touches_one_balance_witness :
  let t' := table (run (deductBalance (Fin 1) (Fin 400)) Demo.seeded).2 in
  tx Demo.seeded = None
  ∧ balance <$> t' !! 1 = Some 600
  ∧ (∀ j, Fin 1 ≠ Fin j → t' !! j = table Demo.seeded !! j)
  ∧ (∀ j, email <$> t' !! j = email <$> table Demo.seeded !! j
          ∧ password <$> t' !! j = password <$> table Demo.seeded !! j).
Proof.
  intros t'. split; [reflexivity|]. split; [reflexivity|].
  exact (deductBalance_touches_one_balance Demo.seeded (Fin 1) (Fin 400) eq_refl).
Defined.


Lemma deductBalance_healthy_returns_witness :
  healthy Demo.seeded
  ∧ ∃ r s', run (deductBalance NaN NInf) Demo.seeded = (Returned r, s')
            ∧ tx s' = None.
Proof.
  assert (Hh : healthy Demo.seeded) by constructor.
  split; [exact Hh|].
  exact (deductBalance_healthy_returns Demo.seeded NaN NInf Hh).
Defined.



(** The header [Bearer signed-secret x], with no [JWT_SECRET] set. *)
Lemma authJwt_verifies_second_piece_witness :
  (occurs " " "Bearer" = false ∧ occurs " " "signed-secret" = false
   ∧ "signed-secret" ≠ EmptyString
   ∧ (" x" = EmptyString ∨ ∃ rest', " x" = String " " rest'))
  ∧ @authJwt signer None (Some "Bearer signed-secret x") = None.
Proof.
  assert (Hne : "signed-secret" ≠ EmptyString) by discriminate.
  assert (Hrest : " x" = EmptyString ∨ ∃ rest', " x" = String " " rest')
    by (right; by exists "x").
  split; [done|].
  exact (@authJwt_verifies_second_piece signer None "Bearer" "signed-secret"
           " x" eq_refl eq_refl Hne Hrest).
Defined.

Lemma buy_changes_table_only_by_verified_debit_witness :
  let h := Some "Bearer signed-secret" in
  let b := Body (Some (Fin 1)) (Some (Fin 400)) in
  let out := run (@buy signer None h b) Demo.seeded in
  (tx Demo.seeded = None ∧ table out.2 ≠ table Demo.seeded)
  ∧ ∃ token decoded uid a acc,
      token_of h = Some token
      ∧ @verify signer token (jwtSecret None) = Some decoded
      ∧ userId b = Some (Fin uid) ∧ amount b = Some (Fin a)
      ∧ table Demo.seeded !! uid = Some acc ∧ 0 < a ≤ balance acc
      ∧ out.1 = Returned (Handled (Deducted (Fin uid) (Fin (balance acc - a))))
      ∧ table out.2
        = <[uid := set_balance (balance acc - a) acc]> (table Demo.seeded).
Proof.
  intros h b out.
  assert (Hchanged : table out.2 ≠ table Demo.seeded).
  { intros Heq. apply (f_equal (λ t, balance <$> t !! 1)) in Heq.
    vm_compute in Heq. discriminate Heq. }
  split; [done|].
  exact (@buy_changes_table_only_by_verified_debit signer None h b Demo.seeded
           eq_refl Hchanged).
Defined.

Lemma buy_ignores_token_payload_witness :
  let h := Some "Bearer signed-secret" in
  let b := Body (Some (Fin 1)) (Some (Fin 400)) in
  (∀ token secret,
     is_Some (@verify signer token secret)
     ↔ is_Some (@verify other_signer token secret))
  ∧ @verify signer "signed-secret" "secret" = Some 1
  ∧ @verify other_signer "signed-secret" "secret" = Some 2
  ∧ @buy signer None h b = @buy other_signer None h b.
Proof.
  intros h b.
  assert (Hsame : ∀ token secret,
    is_Some (@verify signer token secret)
    ↔ is_Some (@verify other_signer token secret)).
  { intros token secret. simpl.
    destruct (String.eqb token ("signed-" +:+ secret)); split;
      intros [x Hx]; done || by eexists. }
  split; [done|]. split; [reflexivity|]. split; [reflexivity|].
  exact (buy_ignores_token_payload signer other_signer None h b Hsame).
Defined.

Lemma events_without_clean_exit : Forall (λ ev, ev ≠ Exit 0) events.
Proof. repeat constructor; discriminate. Defined.

Lemma clean_exit_caches_what_was_streamed_witness :
  let f := deliver 2 (events ++ [Exit 0]) (Flight opening EmptyString Demo.cold) in
  (reachable Demo.cold = true ∧ Forall (λ ev, ev ≠ Exit 0) events)
  ∧ streamed (sent f) = "[1,2]"
  ∧ entries (cache f) !! cacheKey = Some (streamed (sent f), 2 + 300)
  ∧ ∀ key, key ≠ cacheKey →
      entries (cache f) !! key = entries Demo.cold !! key.
Proof.
  intros f. split; [split; [reflexivity|exact events_without_clean_exit]|].
  split; [reflexivity|].
  exact (clean_exit_caches_what_was_streamed 2 events Demo.cold eq_refl
           events_without_clean_exit).
Defined.

Lemma no_clean_exit_leaves_cache_witness :
  let f := Flight opening EmptyString Demo.warm in
  Forall (λ ev, ev ≠ Exit 0) (events ++ [Exit 1])
  ∧ cache (deliver 2 (events ++ [Exit 1]) f) = cache f.
Proof.
  intros f.
  assert (Hevs : Forall (λ ev, ev ≠ Exit 0) (events ++ [Exit 1]))
    by (repeat constructor; discriminate).
  split; [exact Hevs|].
  exact (no_clean_exit_leaves_cache 2 (events ++ [Exit 1]) f Hevs).
Defined.

Lemma getSkinsByWorker_writes_one_key_witness :
  "users" ≠ cacheKey
  ∧ entries (cache_after (@getSkinsByWorker Codec.codec 0 Demo.cold
                            (Rejected "timeout") 2)) !! "users"
    = entries Demo.cold !! "users".
Proof.
  assert (Hkey : "users" ≠ cacheKey) by discriminate.
  split; [exact Hkey|].
  exact (@getSkinsByWorker_writes_one_key Codec.codec 0 Demo.cold
           (Rejected "timeout") 2 "users" Hkey).
Defined.

Lemma expired_entry_is_fetched_again_witness :
  let first := @getSkinsByWorker Codec.codec 0 Demo.cold
                 (Responses Demo.nonTradable Demo.tradable) 2 in
  let second := @getSkinsByWorker Codec.codec 302 (cache_after first)
                  (Rejected "timeout") 303 in
  (@probe Codec.codec 0 Demo.cold = None ∧ 2 + 300 ≤ 302)
  ∧ get 302 cacheKey (cache_after first) = inr None
  ∧ workers second = 1%nat
  ∧ upstream second = requests.
Proof.
  intros first second.
  assert (Hlater : 2 + 300 ≤ 302) by lia.
  split; [split; [reflexivity|exact Hlater]|].
  exact (@expired_entry_is_fetched_again Codec.codec 0 Demo.cold
           Demo.nonTradable Demo.tradable 2 302 (Rejected "timeout") 303
           eq_refl Hlater).
Defined.

Lemma chunkArray_partitions_witness :
  0 < 2
  ∧ chunkArray [1; 2; 3; 4; 5] 2 = Some [[1; 2]; [3; 4]; [5]]
  ∧ ∃ chunks,
      chunkArray [1; 2; 3; 4; 5] 2 = Some chunks
      ∧ concat chunks = [1; 2; 3; 4; 5]
      ∧ Forall (λ c, 0 < Z.of_nat (length c) ≤ 2) chunks
      ∧ full_but_last 2 chunks
      ∧ Z.of_nat (length [1; 2; 3; 4; 5]) ≤ 2 * Z.of_nat (length chunks)
          < Z.of_nat (length [1; 2; 3; 4; 5]) + 2.
Proof.
  assert (Hsize : 0 < 2) by lia.
  split; [exact Hsize|]. split; [reflexivity|].
  exact (chunkArray_partitions [1; 2; 3; 4; 5] 2 Hsize).
Defined.

Lemma chunkArray_ends_only_for_positive_size_witness :
  (0 ≤ 0 ∧ [1; 2; 3] ≠ @nil Z)
  ∧ ∀ fuel, chunk_loop fuel [1; 2; 3] 0 0 [] = None.
Proof.
  assert (Hsize : 0 ≤ 0) by lia.
  assert (Hne : [1; 2; 3] ≠ @nil Z) by discriminate.
  split; [done|].
  exact (proj1 (proj2 (chunkArray_ends_only_for_positive_size [1; 2; 3] 0))
           Hsize Hne).
Defined.

Lemma rows_fit : Forall fits rows.
Proof. repeat constructor; unfold fits; simpl; lia. Defined.

Lemma bulkInsertSkins_inserts_all_witness :
  (sound_items no_items ∧ Forall fits rows ∧ 0 < default 500 (Some 2))
  ∧ ∃ chunks db',
      chunkArray rows (default 500 (Some 2)) = Some chunks
      ∧ Forall (λ c, 0 < Z.of_nat (length c) ≤ default 500 (Some 2)) chunks
      ∧ bulkInsertSkins rows (Some 2) no_items = Some (Returned (), db')
      ∧ items db' = (items no_items ++ numbered (serial no_items) rows)%list
      ∧ received db' = (reverse (batch <$> chunks) ++ received no_items)%list.
Proof.
  assert (Hdb : sound_items no_items) by constructor.
  assert (Hsize : 0 < default 500 (Some 2)) by (simpl; lia).
  split; [split; [exact Hdb|split; [exact rows_fit|exact Hsize]]|].
  exact (bulkInsertSkins_inserts_all rows (Some 2) no_items Hdb rows_fit Hsize).
Defined.

(** Three rows in batches of one, on a server that fails the second
    statement: the first row stays. *)
Lemma bulkInsertSkins_keeps_earlier_batches_witness :
  (Forall fits rows ∧ 0 < 1
   ∧ refusals failing_second = (replicate 1 None ++ Some lost :: [])%list
   ∧ Z.of_nat 1 * 1 < Z.of_nat (length rows))
  ∧ ∃ db',
      bulkInsertSkins rows (Some 1) failing_second = Some (Raised lost, db')
      ∧ items db'
        = (items failing_second
           ++ numbered (serial failing_second) (take (1 * Z.to_nat 1) rows))%list
      ∧ length (received db') = (length (received failing_second) + 2)%nat.
Proof.
  assert (Hsize : 0 < 1) by lia.
  assert (Hk : Z.of_nat 1 * 1 < Z.of_nat (length rows)) by (simpl; lia).
  split; [split; [exact rows_fit|split; [exact Hsize|split; [reflexivity|exact Hk]]]|].
  exact (bulkInsertSkins_keeps_earlier_batches rows 1 failing_second 1 lost []
           rows_fit Hsize eq_refl Hk).
Defined.

Lemma bulkInsertSkins_returns_only_for_positive_size_witness :
  (rows ≠ [] ∧ 0 ≤ 0)
  ∧ bulkInsertSkins rows (Some 0) no_items = None
  ∧ ∀ fuel, chunk_loop fuel rows 0 0 [] = None.
Proof.
  assert (Hne : rows ≠ []) by discriminate.
  assert (Hsize : 0 ≤ 0) by lia.
  split; [done|].
  exact (proj2 (bulkInsertSkins_returns_only_for_positive_size rows 0 no_items)
           Hne Hsize).
Defined.

(** A limit of 0 and an offset of 1 on the three rows: the last two. *)
Lemma getSkins_window_witness :
  (sound_items stocked ∧ (∀ l, Some 0 = Some l → 0 ≤ l)
   ∧ (∀ o, Some 1 = Some o → 0 ≤ o))
  ∧ (getSkins (Some 0) (Some 1) stocked).1
    = inr [Skin "B" None (Some 5%Q); Skin "C" None None]
  ∧ items (getSkins (Some 0) (Some 1) stocked).2 = items stocked.
Proof.
  assert (Hdb : sound_items stocked) by constructor.
  assert (Hl : ∀ l, Some 0 = Some l → 0 ≤ l) by (intros l [= <-]; lia).
  assert (Ho : ∀ o, Some 1 = Some o → 0 ≤ o) by (intros o [= <-]; lia).
  split; [done|].
  exact (getSkins_window (Some 0) (Some 1) stocked Hdb Hl Ho).
Defined.

End Further_examples.
